(** * modern_cpp_studies.cpp: memoization, shared Fibonacci table, tuple hashing

    A shallow embedding of [src/modern_cpp_studies.cpp].

    - [arithmetic_t] is the program's [double_t].  The embedding covers the
      integer-valued doubles together with the two infinities and NaN; the
      rounding of binary64 (53-bit significand, round to nearest, ties to
      even, overflow to infinity) is written out on [Z].  Doubles with a
      fractional part are outside the embedding, and the two zeros are
      identified (they compare equal and hash alike, so the table cannot
      tell them apart).
    - [std::unordered_map] is a [gmap]; a NaN key is never found, as
      [operator==] on doubles is not reflexive there.  Buckets and hash
      values are not part of a table: equal keys hash alike, so a lookup
      finds exactly the entry with an equal key.
    - Recursion that the source does not bound is given fuel; [None] means
      that the fuel ran out.
    - The division of [avg] is in the embedding when it leaves no
      remainder; a quotient with a fractional part is [None].
    - An exception thrown by a wrapped callable is the [inl] of a sum.
    - Undefined behaviour of the command-line layer is an explicit outcome. *)

From Stdlib Require Import ZArith Lia Bool.
From Stdlib Require Import PrimFloat FloatOps SpecFloat Uint63.
From stdpp Require Import base option list gmap strings.

Local Open Scope Z_scope.

(** ** binary64 on integer values *)

Module Double.

Inductive arithmetic_t : Type :=
| Fin (z : Z)
| PInf
| NInf
| NaN.

#[global] Instance arithmetic_eq_dec : EqDecision arithmetic_t.
Proof. solve_decision. Defined.

Definition arithmetic_code (x : arithmetic_t) : Z + nat :=
  match x with
  | Fin z => inl z
  | PInf => inr 0%nat
  | NInf => inr 1%nat
  | NaN => inr 2%nat
  end.

Definition arithmetic_decode (c : Z + nat) : arithmetic_t :=
  match c with
  | inl z => Fin z
  | inr 0%nat => PInf
  | inr 1%nat => NInf
  | inr _ => NaN
  end.

#[global] Instance arithmetic_countable : Countable arithmetic_t.
Proof.
  apply (inj_countable' arithmetic_code arithmetic_decode).
  intros []; reflexivity.
Defined.

(** Number of significand bits, and the exponent at which a rounded
    magnitude overflows. *)
Definition prec : Z := 53.
Definition emax : Z := 1024.

(** Round a magnitude [a >= 0] to a 53-bit significand, nearest, ties to
    even.  Below [2^53] every integer is a double. *)
Definition round_mag (a : Z) : Z :=
  if a <? 2 ^ prec then a
  else
    let e := Z.log2 a - (prec - 1) in
    let q := a / 2 ^ e in
    let r := a mod 2 ^ e in
    let half := 2 ^ (e - 1) in
    let q' :=
      if r <? half then q
      else if half <? r then q + 1
      else if Z.even q then q else q + 1 in
    q' * 2 ^ e.

Definition rnd (z : Z) : arithmetic_t :=
  let m := round_mag (Z.abs z) in
  if 2 ^ emax <=? m then (if z <? 0 then NInf else PInf)
  else Fin (Z.sgn z * m).

Definition dadd (x y : arithmetic_t) : arithmetic_t :=
  match x, y with
  | NaN, _ | _, NaN => NaN
  | PInf, NInf | NInf, PInf => NaN
  | PInf, _ | _, PInf => PInf
  | NInf, _ | _, NInf => NInf
  | Fin a, Fin b => rnd (a + b)
  end.

Definition dneg (x : arithmetic_t) : arithmetic_t :=
  match x with
  | Fin a => Fin (- a)
  | PInf => NInf
  | NInf => PInf
  | NaN => NaN
  end.

Definition dsub (x y : arithmetic_t) : arithmetic_t := dadd x (dneg y).

(** [x <= y]; false as soon as one side is NaN. *)
Definition dle (x y : arithmetic_t) : bool :=
  match x, y with
  | NaN, _ | _, NaN => false
  | NInf, _ | _, PInf => true
  | _, NInf | PInf, _ => false
  | Fin a, Fin b => a <=? b
  end.

Definition is_nan (x : arithmetic_t) : bool :=
  match x with NaN => true | _ => false end.

(** The same values in the kernel's binary64, to compare the rounding
    written out above with: [of_small] converts an integer below [2^63]
    (rounding it as the hardware does), [to_integer] reads a float with an
    integer value back. *)
Definition of_small (z : Z) : float := PrimFloat.of_uint63 (Uint63.of_Z z).

Definition to_integer (f : float) : option Z :=
  match Prim2SF f with
  | S754_zero _ => Some 0
  | S754_finite s m e =>
      let a := if 0 <=? e then Z.pos m * 2 ^ e else Z.pos m / 2 ^ (- e) in
      Some (if s then - a else a)
  | _ => None
  end.

Definition agrees (x : arithmetic_t) (f : float) : bool :=
  match x with
  | Fin r => bool_decide (to_integer f = Some r)
  | _ => false
  end.

(** Integers around the places where the spacing of the doubles changes,
    ties included. *)
Definition rounding_samples : list Z :=
  [0; 1; 2; 30; 2 ^ 53 - 1; 2 ^ 53; 2 ^ 53 + 1; 2 ^ 53 + 2; 2 ^ 53 + 3;
   2 ^ 53 + 4; 2 ^ 53 + 5; 2 ^ 53 + 6; 2 ^ 53 + 7; 2 ^ 54 - 3; 2 ^ 54 - 1;
   2 ^ 54; 2 ^ 54 + 1; 2 ^ 54 + 2; 2 ^ 54 + 3; 2 ^ 54 + 6; 2 ^ 60 + 128;
   2 ^ 60 + 129; 2 ^ 60 + 384; 2 ^ 62 + 511; 2 ^ 62 + 512; 2 ^ 62 + 1536;
   2 ^ 63 - 1].

(** Doubles, to subtract one and two from and to add to one another. *)
Definition double_samples : list Z :=
  [0; 1; 2; 3; 30; 2 ^ 53 - 2; 2 ^ 53; 2 ^ 53 + 2; 2 ^ 53 + 4; 2 ^ 53 + 6;
   2 ^ 53 + 8; 2 ^ 54 - 2; 2 ^ 54; 2 ^ 54 + 4; 2 ^ 54 + 8; 2 ^ 60; 2 ^ 62].

End Double.

Import Double.

(** ** The shared Fibonacci table *)

Module Fib.

(** [std::unordered_map<arithmetic_t, arithmetic_t>]. *)
Abbreviation table := (gmap arithmetic_t arithmetic_t).

(** [cache.find(n)]: [None] stands for [end()]. *)
Definition find (n : arithmetic_t) (cache : table) : option arithmetic_t :=
  if is_nan n then None else cache !! n.

(** [cache[n] = v]. *)
Definition assign (n v : arithmetic_t) (cache : table) : table :=
  <[n := v]> cache.

(** [cache[n]] read as a value: a key that is not found is inserted with a
    value-initialised ([0.0]) mapped value. *)
Definition subscript (n : arithmetic_t) (cache : table)
  : arithmetic_t * table :=
  match find n cache with
  | Some v => (v, cache)
  | None => (Fin 0, assign n (Fin 0) cache)
  end.

(** [fib<arithmetic_t>], lines 44-48. *)
Fixpoint fib (fuel : nat) (n : arithmetic_t) : option arithmetic_t :=
  match fuel with
  | O => None
  | S fuel' =>
      if dle n (Fin 1) then Some (Fin 1)
      else
        a ← fib fuel' (dsub n (Fin 1));
        b ← fib fuel' (dsub n (Fin 2));
        Some (dadd a b)
  end.

(** [fib_memo], lines 50-56.  The table is threaded through the calls; the
    right-hand side of the assignment is evaluated before [cache[n]] on its
    left.  The language leaves the order of the two operands of [+] open;
    they are taken from left to right here, and [fib_memo_any] below
    takes them in any order. *)
Fixpoint fib_memo (fuel : nat) (n : arithmetic_t) (cache : table)
  : option (arithmetic_t * table) :=
  match fuel with
  | O => None
  | S fuel' =>
      cache1 ←
        match find n cache with
        | Some _ => Some cache
        | None =>
            '(v, c) ←
              (if dle n (Fin 1) then Some (Fin 1, cache)
               else
                 '(a, c1) ← fib_memo fuel' (dsub n (Fin 1)) cache;
                 '(b, c2) ← fib_memo fuel' (dsub n (Fin 2)) c1;
                 Some (dadd a b, c2));
            Some (assign n v c)
        end;
      Some (subscript n cache1)
  end.

(** The closed recursive definition, as the specification words it. *)
Fixpoint fib_spec (n : nat) : Z :=
  match n with
  | O => 1
  | S m =>
      match m with
      | O => 1
      | S k => fib_spec m + fib_spec k
      end
  end.

(** Tables that the program can hold: the global starts empty and only
    [fib_memo] writes to it. *)
Inductive reachable : table → Prop :=
| reach_init : reachable ∅
| reach_call fuel n cache v cache' :
    reachable cache →
    fib_memo fuel n cache = Some (v, cache') →
    reachable cache'.

(** Up to [2^53] every integer is a double, and so is every difference the
    recursion forms. *)
Definition exact_max : Z := 2 ^ 53.

Definition in_exact_zone (k : arithmetic_t) : bool := dle k (Fin exact_max).

(** The value of the recursion at an integer index, computed bottom-up
    with the additions of the source: the [n]-th pair is
    [(fib n, fib (n + 1))]. *)
Fixpoint fib_pair (n : nat) : arithmetic_t * arithmetic_t :=
  match n with
  | O => (Fin 1, Fin 1)
  | S m => let '(a, b) := fib_pair m in (b, dadd b a)
  end.

Definition fib_val (k : arithmetic_t) : arithmetic_t :=
  match k with
  | Fin z => (fib_pair (Z.to_nat z)).1
  | _ => Fin 1
  end.

(** What every table the program can hold satisfies: in the exact zone a
    stored value is the value of the recursion at its key, and an index of
    at least two is stored together with every index from zero up to it. *)
Definition table_ok (t : table) : Prop :=
  (∀ k v, t !! k = Some v → in_exact_zone k = true → v = fib_val k) ∧
  (∀ z, 2 ≤ z ≤ exact_max → is_Some (t !! Fin z) →
        ∀ j, 0 ≤ j ≤ z → is_Some (t !! Fin j)).

(** Entries in the exact zone are kept. *)
Definition extends (t t' : table) : Prop :=
  ∀ k x, in_exact_zone k = true → t !! k = Some x → t' !! k = Some x.

(** The table after [fib_memo(10)] on the fresh table. *)
Definition after_ten : table :=
  match fib_memo 11 (Fin 10) ∅ with
  | Some (_, t) => t
  | None => ∅
  end.

(** [fib_memo] again, with the order of the two operands of [+] left to
    an oracle that is asked at every call ([true]: the left operand
    first), as the language allows. *)
Fixpoint fib_memo_any (order : nat → arithmetic_t → bool)
    (fuel : nat) (n : arithmetic_t) (cache : table)
  : option (arithmetic_t * table) :=
  match fuel with
  | O => None
  | S fuel' =>
      cache1 ←
        match find n cache with
        | Some _ => Some cache
        | None =>
            '(v, c) ←
              (if dle n (Fin 1) then Some (Fin 1, cache)
               else if order fuel' n then
                 '(a, c1) ← fib_memo_any order fuel' (dsub n (Fin 1)) cache;
                 '(b, c2) ← fib_memo_any order fuel' (dsub n (Fin 2)) c1;
                 Some (dadd a b, c2)
               else
                 '(b, c1) ← fib_memo_any order fuel' (dsub n (Fin 2)) cache;
                 '(a, c2) ← fib_memo_any order fuel' (dsub n (Fin 1)) c1;
                 Some (dadd a b, c2));
            Some (assign n v c)
        end;
      Some (subscript n cache1)
  end.

(** The indices a call at [z] stores, when they are not stored yet: from
    zero to [z] when [z] is at least two, and [z] alone otherwise. *)
Definition in_fill (z j : Z) : bool :=
  if 2 <=? z then (0 <=? j) && (j <=? z) else j =? z.

(** The lookups of the table after a call at [z] on the table [t]. *)
Definition filled (z : Z) (t : table) (k : arithmetic_t)
  : option arithmetic_t :=
  match k with
  | Fin j => if in_fill z j then Some (fib_val (Fin j)) else t !! k
  | _ => t !! k
  end.


End Fib.

(** ** The composite key hasher *)

Module TupleHash.

(** [size_t] is 64 bits wide; its arithmetic wraps. *)
Definition add64 (a b : Z) : Z := (a + b) mod 2 ^ 64.
Definition shl64 (a k : Z) : Z := Z.shiftl a k mod 2 ^ 64.
Definition shr64 (a k : Z) : Z := Z.shiftr a k.

(** [0x9e3779b9]. *)
Definition golden : Z := 2654435769.

(** [h ^ (e + 0x9e3779b9 + (h << 6) + (h >> 2))]. *)
Definition mix (h e : Z) : Z :=
  Z.lxor h (add64 (add64 (add64 e golden) (shl64 h 6)) (shr64 h 2)).

Section tuple_hash.
Context {value : Type}.
(** The static type of a tuple component, and [std::hash] at that type, a
    [size_t]. *)
Variable type_of : value → string.
Variable std_hash : value → Z.

(** [std::get<Ty>(t)]: ill-formed unless exactly one component of [t] has
    type [Ty]. *)
Definition get_by_type (ty : string) (t : list value) : option value :=
  match filter (λ v, type_of v = ty) t with
  | [v] => Some v
  | _ => None
  end.

(** [tuple_hash<T, Ts...>::operator()], lines 64-76, by recursion on the
    parameter pack.  [None] is an instantiation that does not compile: the
    primary template, which is all there is for the empty pack, is declared
    and never defined, and a [std::get<Ty>] may be ill-formed. *)
Fixpoint tuple_hash (pack : list string) (t : list value) : option Z :=
  match pack with
  | [] => None
  | _ :: Ts =>
      x ← head t;
      let hash_value := std_hash x in
      match Ts with
      | [] => Some hash_value
      | _ :: _ =>
          rest ← mapM (λ ty, get_by_type ty t) Ts;
          r ← tuple_hash Ts rest;
          Some (mix hash_value r)
      end
  end.

(** The hasher applied to a key, at the key's own type. *)
Definition hash_key (t : list value) : option Z :=
  tuple_hash (type_of <$> t) t.

(** The fold the specification describes: start from the hash of the
    first element and combine the running hash with the hash of each
    later element in turn. *)
Definition spec_fold (t : list value) : option Z :=
  match t with
  | [] => None
  | x :: rest => Some (foldl mix (std_hash x) (std_hash <$> rest))
  end.

(** What the recursion computes: the hash of the head combined with the
    composite hash of the whole tail. *)
Fixpoint nested (x : value) (rest : list value) : Z :=
  match rest with
  | [] => std_hash x
  | y :: rest' => mix (std_hash x) (nested y rest')
  end.
End tuple_hash.

(** Sample components: a value is given by its static type and by what
    [std::hash] returns on it. *)
Definition sample_type (v : string * Z) : string := v.1.
Definition sample_hash (v : string * Z) : Z := v.2.

(** The same with the hash brought into the range of [size_t]. *)
Definition sample_hash64 (v : string * Z) : Z := v.2 mod 2 ^ 64.

End TupleHash.

(** ** The memoization adapter *)

Module Memo.

Section memo.
(** [K] is [std::tuple<args_t...>], compared by structural equality, [V]
    is [return_t], [E] is what the callable may throw and [W] is the
    program state it may read and write. *)
Context {K V E W : Type} `{Countable K} `{Inhabited V}.

Definition callable : Type := K → W → (E + V) * W.

(** The closure returned by [memo]: the captured callable and the
    captured table. *)
Record functor : Type := Functor {
  func : callable;
  cache : gmap K V
}.

(** [memo], lines 85-95. *)
Definition memo (f : callable) : functor :=
  {| func := f; cache := ∅ |}.

(** [cache[key]] read as a value. *)
Definition subscript (key : K) (c : gmap K V) : V * gmap K V :=
  match c !! key with
  | Some v => (v, c)
  | None => (inhabitant, <[key := inhabitant]> c)
  end.

(** The body of the returned lambda, lines 88-94.  [func(args...)] is
    evaluated before [cache[key]] on the left of the assignment, so an
    exception leaves the table as it was. *)
Definition invoke (m : functor) (key : K) (w : W)
  : (E + V) * functor * W :=
  match cache m !! key with
  | None =>
      match func m key w with
      | (inr v, w') =>
          let '(r, c) := subscript key (<[key := v]> (cache m)) in
          (inr r, {| func := func m; cache := c |}, w')
      | (inl e, w') => (inl e, m, w')
      end
  | Some _ =>
      let '(r, c) := subscript key (cache m) in
      (inr r, {| func := func m; cache := c |}, w)
  end.

(** A run of calls; the results are dropped. *)
Fixpoint invoke_all (m : functor) (keys : list K) (w : W) : functor * W :=
  match keys with
  | [] => (m, w)
  | key :: keys' =>
      let '(_, m', w') := invoke m key w in invoke_all m' keys' w'
  end.
End memo.

Arguments callable : clear implicits.
Arguments functor _ _ _ _ {_ _}.

(** What [flaky] below throws. *)
Inductive errno : Type := once.

(** A callable that counts its invocations in the program state. *)
Definition counting {K V : Type} (f : K → V) : callable K V Empty_set nat :=
  λ key count, (inr (f key), S count).

(** A callable instrumented with a log of its invocations: the key and
    whether the invocation returned. *)
Definition logged {K V E W : Type} (f : callable K V E W)
  : callable K V E (W * list (K * bool)) :=
  λ key '(w, log),
    match f key w with
    | (inr v, w') => (inr v, (w', log ++ [(key, true)]))
    | (inl e, w') => (inl e, (w', log ++ [(key, false)]))
    end.

(** [slow_func], lines 58-62: the program state is the time slept so far,
    in seconds. *)
Definition slow_func : callable Z Z Empty_set Z :=
  λ seconds elapsed, (inr seconds, elapsed + seconds).

(** A callable that throws on its first invocation and returns from then
    on; the program state counts its invocations. *)
Definition flaky : callable Z Z errno nat :=
  λ key count,
    match count with
    | O => (inl once, 1%nat)
    | S _ => (inr (2 * key), S count)
    end.


(** How many invocations with key [k] a log records as having returned. *)
Definition returning_calls {K : Type} `{EqDecision K}
    (k : K) (log : list (K * bool)) : nat :=
  length (filter (λ e, e = (k, true)) log).

End Memo.

(** ** The reducers *)

Module Reduce.

(** [sum], lines 32-36: [std::accumulate] from [t(0)], left to right. *)
Definition sum (args : list arithmetic_t) : arithmetic_t :=
  foldl dadd (Fin 0) args.

(** A double divided by a size converted to double.  The converted size is
    exact up to [2^53], and is the positive zero when the size is zero.
    The quotient of two integers is correctly rounded; it is in the
    embedding when the division leaves no remainder, and [None] stands
    for a quotient with a fractional part, or a size past [2^53]. *)
Definition div_size (x : arithmetic_t) (n : nat) : option arithmetic_t :=
  let d := Z.of_nat n in
  match x with
  | NaN => Some NaN
  | PInf => Some PInf
  | NInf => Some NInf
  | Fin a =>
      if d =? 0 then
        Some (if a =? 0 then NaN else if a <? 0 then NInf else PInf)
      else if 2 ^ 53 <? d then None
      else if a mod d =? 0 then Some (rnd (a / d))
      else None
  end.

(** [avg], lines 38-42. *)
Definition avg (args : list arithmetic_t) : option arithmetic_t :=
  div_size (sum args) (length args).

(** The sum of a list of integers, and the sum of their magnitudes, which
    bounds every partial sum. *)
Definition total (zs : list Z) : Z := foldr Z.add 0 zs.
Definition abs_total (zs : list Z) : Z := foldr (λ z acc, Z.abs z + acc) 0 zs.

(** Doubles and sizes that divide them, to compare [div_size] with the
    kernel's binary64 division on. *)
Definition quotient_samples : list (Z * nat) :=
  [(0, 1%nat); (12, 1%nat); (12, 3%nat); (12, 4%nat); (89, 1%nat);
   (2 ^ 53, 2%nat); (2 ^ 53 + 2, 2%nat); (2 ^ 54 + 4, 4%nat);
   (3 * 2 ^ 58, 3%nat); (3 * 2 ^ 58, 6%nat); (2 ^ 62 + 2 ^ 10, 2%nat);
   (2 ^ 62, 1024%nat); (15 * 2 ^ 56, 5%nat)].

End Reduce.

(** ** The command-line layer *)

Module Cli.

Import Fib Memo Reduce.

(** The error codes [std::from_chars] reports. *)
Inductive errc : Type :=
| invalid_argument
| result_out_of_range.

(** [std::expected<T, std::errc>]. *)
Inductive expected (T : Type) : Type :=
| has_value (v : T)
| unexpected (ec : errc).
Arguments has_value {T} v.
Arguments unexpected {T} ec.

(** The undefined behaviours the layer can run into. *)
Inductive undefined : Type :=
| deref_without_value      (* [operator*] on an [expected] holding an error *)
| index_out_of_range       (* [operator[]] past the end of a vector or view *)
| conversion_out_of_range. (* a double with no [size_t] value *)

(** A run either completes, reports an error to its caller, or has
    undefined behaviour.  Nothing in the source builds a [Reported]; it is
    here for what the specification asks of the layer. *)
Inductive outcome (A : Type) : Type :=
| Done (a : A)
| Reported (ec : errc)
| Undefined (u : undefined).
Arguments Done {A} a.
Arguments Reported {A} ec.
Arguments Undefined {A} u.

#[global] Instance outcome_ret : MRet outcome := λ A a, Done a.
#[global] Instance outcome_bind : MBind outcome := λ A B f o,
  match o with
  | Done a => f a
  | Reported ec => Reported ec
  | Undefined u => Undefined u
  end.

(** [*e]: no check. *)
Definition deref {T : Type} (e : expected T) : outcome T :=
  match e with
  | has_value v => Done v
  | unexpected _ => Undefined deref_without_value
  end.

(** [v[i]]: no check. *)
Definition index {T : Type} (v : list T) (i : nat) : outcome T :=
  match v !! i with
  | Some x => Done x
  | None => Undefined index_out_of_range
  end.

(** The implicit conversion of a double argument to a [size_t] parameter. *)
Definition to_size_t (x : arithmetic_t) : outcome Z :=
  match x with
  | Fin z =>
      if (0 <=? z) && (z <? 2 ^ 64) then Done z
      else Undefined conversion_out_of_range
  | _ => Undefined conversion_out_of_range
  end.

Section cli.
(** [std::from_chars] at [arithmetic_t]: the value it writes, or an error
    code other than [std::errc()]. *)
Variable from_chars : string → arithmetic_t + errc.

(** [parse<arithmetic_t>], lines 20-30. *)
Definition parse (str : string) : expected arithmetic_t :=
  match from_chars str with
  | inl value => has_value value
  | inr ec => unexpected ec
  end.

(** The pipeline of [test_memo]: drop the program name, parse and
    dereference each argument, collect into a vector. *)
Definition decode_all (argv : list string) : outcome (list arithmetic_t) :=
  mapM (λ arg, deref (parse arg)) (drop 1 argv).

(** One [slow_func_memo(args[0])]. *)
Definition call_first (args : list arithmetic_t)
    (m : functor Z Z Empty_set Z) (elapsed : Z)
  : outcome (Z * functor Z Z Empty_set Z * Z) :=
  a ← index args 0%nat;
  seconds ← to_size_t a;
  match invoke m seconds elapsed with
  | (inr r, m', elapsed') => Done (r, m', elapsed')
  | (inl e, _, _) => match e with end
  end.

(** [test_memo], lines 129-147: the printed value and the time slept. *)
Definition test_memo (argv : list string) (elapsed : Z) : outcome (Z * Z) :=
  args ← decode_all argv;
  let slow_func_memo := memo slow_func in
  '(_, m1, t1) ← call_first args slow_func_memo elapsed;
  '(_, m2, t2) ← call_first args m1 t1;
  '(_, m3, t3) ← call_first args m2 t2;
  '(_, m4, t4) ← call_first args m3 t3;
  '(_, m5, t5) ← call_first args m4 t4;
  '(_, m6, t6) ← call_first args m5 t5;
  '(_, m7, t7) ← call_first args m6 t6;
  '(r, _, t8) ← call_first args m7 t7;
  Done (r, t8).

(** [test_fib_memo], lines 117-127: the views are lazy, so only the
    first tail argument is parsed, and only after the size check.  The
    result is what is printed, if anything, and the shared table. *)
Definition test_fib_memo (fuel : nat) (argv : list string) (cache : table)
  : option (outcome (option arithmetic_t * table)) :=
  let arg := take 1 (drop 1 argv) in
  if (length arg <? 1)%nat then Some (Done (None, cache))
  else
    match index arg 0%nat ≫= (λ s, deref (parse s)) with
    | Done n =>
        '(r, cache') ← fib_memo fuel n cache;
        Some (Done (Some r, cache'))
    | Reported ec => Some (Reported ec)
    | Undefined u => Some (Undefined u)
    end.

(** [main], lines 149-155. *)
Definition main (argv : list string) (elapsed : Z) : outcome (Z * Z) :=
  test_memo argv elapsed.

(** [test_sum], lines 97-105: what is printed. *)
Definition test_sum (argv : list string) : outcome arithmetic_t :=
  args ← decode_all argv;
  Done (sum args).

(** [test_avg], lines 107-115: what is printed; [None] when the average is
    outside the embedding. *)
Definition test_avg (argv : list string) : option (outcome arithmetic_t) :=
  match decode_all argv with
  | Done args => r ← avg args; Some (Done r)
  | Reported ec => Some (Reported ec)
  | Undefined u => Some (Undefined u)
  end.
End cli.

(** A sample [std::from_chars]: a non-empty run of decimal digits at the
    start of the text is read as its value (rounded to a double), anything
    else is [invalid_argument]. *)
Fixpoint leading_digits (s : string) : list Z :=
  match s with
  | String c s' =>
      let d := Z.of_nat (Ascii.nat_of_ascii c) - 48 in
      if (0 <=? d) && (d <=? 9) then d :: leading_digits s' else []
  | EmptyString => []
  end.

Definition from_chars_digits (s : string) : arithmetic_t + errc :=
  match leading_digits s with
  | [] => inr invalid_argument
  | ds =>
      match rnd (foldl (λ acc d, 10 * acc + d) 0 ds) with
      | Fin z => inl (Fin z)
      | _ => inr result_out_of_range
      end
  end.

End Cli.

(** * Properties *)

Import Fib TupleHash Memo Reduce Cli.

(** ** binary64 *)

(** On the samples the rounding written out on [Z], and the subtraction
    and addition built from it, give what the kernel's binary64 gives. *)
Lemma rnd_agrees_with_binary64 :
  forallb (λ z, agrees (rnd z) (of_small z)) rounding_samples = true ∧
  forallb (λ a, agrees (dsub (Fin a) (Fin 1))
                  (PrimFloat.sub (of_small a) (of_small 1)) &&
                agrees (dsub (Fin a) (Fin 2))
                  (PrimFloat.sub (of_small a) (of_small 2)))
    double_samples = true ∧
  forallb (λ a, forallb (λ b, agrees (dadd (Fin a) (Fin b))
                                (PrimFloat.add (of_small a) (of_small b)))
                  double_samples)
    double_samples = true.
Proof. by vm_compute. Qed.

Lemma rnd_exact (z : Z) : 0 ≤ z < exact_max → rnd z = Fin z.
Proof.
  intros Hz. unfold exact_max in Hz. unfold rnd, round_mag, prec, emax.
  rewrite Z.abs_eq by lia.
  destruct (Z.ltb_spec z (2 ^ 53)) as [_|]; [|lia].
  assert (2 ^ 53 < 2 ^ 1024) by (apply Z.pow_lt_mono_r; lia).
  destruct (Z.leb_spec (2 ^ 1024) z) as [|_]; [lia|].
  f_equal. destruct (decide (z = 0)) as [->|]; [done|].
  rewrite Z.sgn_pos by lia. lia.
Qed.

Lemma dsub_exact (z d : Z) :
  0 ≤ z - d < exact_max → dsub (Fin z) (Fin d) = Fin (z - d).
Proof.
  intros Hz. unfold dsub, dneg, dadd.
  replace (z + - d) with (z - d) by lia. by apply rnd_exact.
Qed.

Lemma dle_one_cases (n : arithmetic_t) :
  dle n (Fin 1) = true → n = NInf ∨ ∃ z, n = Fin z ∧ z ≤ 1.
Proof.
  destruct n as [z| | |]; simpl; try done; [|by left].
  intros Hz%Z.leb_le. right. by exists z.
Qed.


(** ** The table operations *)

Lemma find_Some_lookup (n v : arithmetic_t) (t : table) :
  find n t = Some v ↔ is_nan n = false ∧ t !! n = Some v.
Proof.
  unfold find. destruct (is_nan n); split; try done; by intros [? ?].
Qed.

Lemma find_assign (n v : arithmetic_t) (t : table) :
  is_nan n = false → find n (assign n v t) = Some v.
Proof.
  intros Hn. unfold find, assign. rewrite Hn. apply lookup_insert_eq.
Qed.

Lemma subscript_assign (n v : arithmetic_t) (t : table) :
  is_nan n = false → Fib.subscript n (assign n v t) = (v, assign n v t).
Proof. intros Hn. unfold Fib.subscript. by rewrite find_assign. Qed.

Lemma dle_not_nan (n m : arithmetic_t) : dle n m = true → is_nan n = false.
Proof. by destruct n. Qed.

(** ** One step of [fib_memo], case by case *)

Lemma fib_memo_hit (fuel : nat) (n x : arithmetic_t) (t : table) :
  find n t = Some x → fib_memo (S fuel) n t = Some (x, t).
Proof. intros Hf. simpl. rewrite Hf. simpl. unfold Fib.subscript. by rewrite Hf. Qed.

Lemma fib_memo_base (fuel : nat) (n : arithmetic_t) (t : table) :
  find n t = None → dle n (Fin 1) = true →
  fib_memo (S fuel) n t = Some (Fin 1, assign n (Fin 1) t).
Proof.
  intros Hf Hle. simpl. rewrite Hf, Hle. simpl.
  by rewrite subscript_assign by (by eapply dle_not_nan).
Qed.

Lemma fib_memo_rec (fuel : nat) (n : arithmetic_t) (t : table) :
  find n t = None → dle n (Fin 1) = false →
  fib_memo (S fuel) n t =
    '(a, c1) ← fib_memo fuel (dsub n (Fin 1)) t;
    '(b, c2) ← fib_memo fuel (dsub n (Fin 2)) c1;
    Some (Fib.subscript n (assign n (dadd a b) c2)).
Proof.
  intros Hf Hle. simpl. rewrite Hf, Hle.
  destruct (fib_memo fuel (dsub n (Fin 1)) t) as [[a c1]|]; [|done]. simpl.
  by destruct (fib_memo fuel (dsub n (Fin 2)) c1) as [[b c2]|].
Qed.

(** Fuel only bounds the depth of the recursion: a call that returns
    returns the same with more fuel. *)
Lemma fib_memo_fuel_S (fuel : nat) :
  ∀ (n : arithmetic_t) (t : table) (r : arithmetic_t * table),
    fib_memo fuel n t = Some r → fib_memo (S fuel) n t = Some r.
Proof.
  induction fuel as [|fuel IH]; intros n t r Hrun; [done|].
  destruct (find n t) as [x|] eqn:Hfind.
  { rewrite (fib_memo_hit fuel _ x) in Hrun by done.
    by rewrite (fib_memo_hit (S fuel) _ x). }
  destruct (dle n (Fin 1)) eqn:Hle.
  { rewrite (fib_memo_base fuel) in Hrun by done.
    by rewrite (fib_memo_base (S fuel)). }
  rewrite (fib_memo_rec fuel) in Hrun by done.
  rewrite (fib_memo_rec (S fuel)) by done.
  destruct (fib_memo fuel (dsub n (Fin 1)) t) as [[a c1]|] eqn:H1; [|done].
  rewrite (IH _ _ _ H1). cbn [mbind option_bind] in Hrun |- *.
  destruct (fib_memo fuel (dsub n (Fin 2)) c1) as [[b c2]|] eqn:H2; [|done].
  by rewrite (IH _ _ _ H2).
Qed.

Lemma fib_memo_fuel_le (fuel fuel' : nat) (n : arithmetic_t) (t : table)
    (r : arithmetic_t * table) :
  (fuel ≤ fuel')%nat →
  fib_memo fuel n t = Some r → fib_memo fuel' n t = Some r.
Proof.
  induction 1 as [|fuel' _ IH]; [done|].
  intros Hrun. by apply fib_memo_fuel_S, IH.
Qed.

(** ** The value of the recursion *)

Lemma fib_pair_low (n : nat) : (n ≤ 1)%nat → (fib_pair n).1 = Fin 1.
Proof. destruct n as [|[|n]]; [done|done|lia]. Qed.

Lemma fib_val_base (z : Z) : z ≤ 1 → fib_val (Fin z) = Fin 1.
Proof. intros Hz. apply fib_pair_low. lia. Qed.

Lemma fib_val_le_one (n : arithmetic_t) :
  dle n (Fin 1) = true → fib_val n = Fin 1.
Proof.
  intros [->|(z & -> & Hz)]%dle_one_cases; [done|]. by apply fib_val_base.
Qed.

Lemma fib_val_step (z : Z) :
  2 ≤ z →
  fib_val (Fin z) = dadd (fib_val (Fin (z - 1))) (fib_val (Fin (z - 2))).
Proof.
  intros Hz. unfold fib_val.
  replace (Z.to_nat z) with (S (S (Z.to_nat (z - 2)))) by lia.
  replace (Z.to_nat (z - 1)) with (S (Z.to_nat (z - 2))) by lia.
  generalize (Z.to_nat (z - 2)) as m. intros m. simpl.
  by destruct (fib_pair m) as [a b].
Qed.

(** ** The invariant of the shared table *)

Lemma extends_refl (t : table) : extends t t.
Proof. by intros k x _ Hk. Qed.

Lemma extends_trans (t1 t2 t3 : table) :
  extends t1 t2 → extends t2 t3 → extends t1 t3.
Proof. intros H12 H23 k x Hz Hk. apply H23, H12; done. Qed.

Lemma extends_is_Some (t t' : table) (z : Z) :
  extends t t' → z ≤ exact_max → is_Some (t !! Fin z) → is_Some (t' !! Fin z).
Proof.
  intros Hext Hz [x Hx]. exists x. apply Hext; [|done].
  unfold in_exact_zone. simpl. by apply Z.leb_le.
Qed.

Lemma insert_is_Some_mono (n v k : arithmetic_t) (t : table) :
  is_Some (t !! k) → is_Some (<[n := v]> t !! k).
Proof.
  intros Hk. apply lookup_insert_is_Some.
  destruct (decide (n = k)); [by left|by right].
Qed.

Lemma table_ok_empty : table_ok ∅.
Proof.
  split.
  - intros k v Hk. by rewrite lookup_empty in Hk.
  - intros z _ [x Hx]. by rewrite lookup_empty in Hx.
Qed.

Lemma table_ok_insert (n v : arithmetic_t) (t : table) :
  table_ok t →
  (in_exact_zone n = true → v = fib_val n) →
  (∀ z, n = Fin z → 2 ≤ z ≤ exact_max →
        ∀ j, 0 ≤ j < z → is_Some (t !! Fin j)) →
  table_ok (<[n := v]> t) ∧ extends t (<[n := v]> t).
Proof.
  intros [Hval Hdown] Hv Hbelow. split; [split|].
  - intros k x Hk Hz. destruct (decide (n = k)) as [->|Hne].
    + rewrite lookup_insert_eq in Hk. injection Hk as <-. by apply Hv.
    + rewrite lookup_insert_ne in Hk by done. by apply Hval.
  - intros z Hz Hsome j Hj. destruct (decide (n = Fin z)) as [Heq|Hne].
    + destruct (decide (j = z)) as [->|Hjz].
      * rewrite Heq, lookup_insert_eq. by eexists.
      * apply insert_is_Some_mono, (Hbelow z); [done|done|lia].
    + rewrite lookup_insert_ne in Hsome by done.
      apply insert_is_Some_mono. by apply (Hdown z).
  - intros k x Hz Hk. destruct (decide (n = k)) as [->|Hne].
    + rewrite lookup_insert_eq. f_equal.
      rewrite (Hv Hz). symmetry. by apply Hval.
    + by rewrite lookup_insert_ne.
Qed.

(** A call that returns keeps the invariant, keeps what the exact zone
    held, and leaves its result stored under its argument. *)
Lemma fib_memo_sound (fuel : nat) :
  ∀ (n : arithmetic_t) (t : table) (v : arithmetic_t) (t' : table),
    table_ok t →
    fib_memo fuel n t = Some (v, t') →
    table_ok t' ∧ extends t t' ∧ find n t' = Some v.
Proof.
  induction fuel as [|fuel IH]; intros n t v t' Hok Hrun; [done|].
  destruct (find n t) as [x|] eqn:Hfind.
  { rewrite (fib_memo_hit _ _ x) in Hrun by done. injection Hrun as <- <-.
    split; [done|]. split; [apply extends_refl|done]. }
  destruct (dle n (Fin 1)) eqn:Hle.
  { rewrite fib_memo_base in Hrun by done. injection Hrun as <- <-.
    destruct (table_ok_insert n (Fin 1) t Hok) as [Hok' Hext].
    - intros _. symmetry. by apply fib_val_le_one.
    - intros z -> Hz. simpl in Hle. apply Z.leb_le in Hle. lia.
    - split; [done|]. split; [done|].
      apply find_assign. by eapply dle_not_nan. }
  rewrite fib_memo_rec in Hrun by done.
  destruct (fib_memo fuel (dsub n (Fin 1)) t) as [[a c1]|] eqn:H1; [|done].
  simpl in Hrun.
  destruct (fib_memo fuel (dsub n (Fin 2)) c1) as [[b c2]|] eqn:H2; [|done].
  simpl in Hrun.
  destruct (IH _ _ _ _ Hok H1) as (Hok1 & Hext1 & Hf1).
  destruct (IH _ _ _ _ Hok1 H2) as (Hok2 & Hext2 & Hf2).
  assert (is_nan n = false) as Hnan.
  { by destruct n. }
  rewrite subscript_assign in Hrun by done. injection Hrun as <- <-.
  assert (∀ z, n = Fin z → z ≤ exact_max →
            2 ≤ z ∧ c1 !! Fin (z - 1) = Some a ∧ c2 !! Fin (z - 2) = Some b)
    as Hargs.
  { intros z -> Hz. simpl in Hle. apply Z.leb_gt in Hle.
    rewrite dsub_exact in Hf1, Hf2 by (unfold exact_max in *; lia).
    apply find_Some_lookup in Hf1 as [_ Hf1].
    apply find_Some_lookup in Hf2 as [_ Hf2]. split; [lia|done]. }
  destruct (table_ok_insert n (dadd a b) c2 Hok2) as [Hok' Hext'].
  - intros Hz. destruct n as [z| | |]; try done.
    apply Z.leb_le in Hz.
    destruct (Hargs z eq_refl Hz) as (Hz2 & Ha & Hb).
    rewrite fib_val_step by done. f_equal.
    + apply (proj1 Hok1 _ _ Ha). apply Z.leb_le. lia.
    + apply (proj1 Hok2 _ _ Hb). apply Z.leb_le. lia.
  - intros z -> Hz j Hj.
    destruct (Hargs z eq_refl (proj2 Hz)) as (_ & Ha & Hb).
    assert (is_Some (c2 !! Fin (z - 1))) as Ha2.
    { apply (extends_is_Some c1); [done|lia|by eexists]. }
    destruct (decide (z = 2)) as [->|Hz2].
    + destruct (decide (j = 1)) as [->|]; [done|].
      replace j with (2 - 2) by lia. by eexists.
    + apply (proj2 Hok2 (z - 1)); [lia|done|lia].
  - split; [done|]. split; [|by apply find_assign].
    eapply extends_trans; [done|]. by eapply extends_trans.
Qed.

Lemma reachable_ok (t : table) : reachable t → table_ok t.
Proof.
  induction 1 as [|fuel n t v t' _ IH Hrun]; [apply table_ok_empty|].
  by destruct (fib_memo_sound _ _ _ _ _ IH Hrun).
Qed.

(** ** Termination in the exact zone *)

Lemma fib_memo_total_exact (fuel : nat) :
  ∀ (z : Z) (t : table),
    z ≤ exact_max → (Z.to_nat z < fuel)%nat →
    is_Some (fib_memo fuel (Fin z) t).
Proof.
  induction fuel as [|fuel IH]; intros z t Hz Hfuel; [lia|].
  destruct (find (Fin z) t) as [x|] eqn:Hfind.
  { rewrite (fib_memo_hit _ _ x) by done. by eexists. }
  destruct (dle (Fin z) (Fin 1)) eqn:Hle.
  { rewrite fib_memo_base by done. by eexists. }
  rewrite fib_memo_rec by done.
  simpl in Hle. apply Z.leb_gt in Hle.
  rewrite !dsub_exact by (unfold exact_max in *; lia).
  destruct (IH (z - 1) t) as [[a c1] ->]; [lia|lia|]. simpl.
  destruct (IH (z - 2) c1) as [[b c2] ->]; [lia|lia|]. simpl.
  by eexists.
Qed.


(** A call in the exact zone writes no key above its argument. *)
Lemma fib_memo_frame (fuel : nat) :
  ∀ (z : Z) (t : table) (v : arithmetic_t) (t' : table),
    z ≤ exact_max →
    fib_memo fuel (Fin z) t = Some (v, t') →
    ∀ k, (∀ j, k = Fin j → z < j) → t' !! k = t !! k.
Proof.
  induction fuel as [|fuel IH]; intros z t v t' Hz Hrun k Hk; [done|].
  assert (Fin z ≠ k) as Hne by (intros <-; specialize (Hk z eq_refl); lia).
  destruct (find (Fin z) t) as [x|] eqn:Hfind.
  { rewrite (fib_memo_hit _ _ x) in Hrun by done. by injection Hrun as <- <-. }
  destruct (dle (Fin z) (Fin 1)) eqn:Hle.
  { rewrite fib_memo_base in Hrun by done. injection Hrun as <- <-.
    by apply lookup_insert_ne. }
  rewrite fib_memo_rec in Hrun by done.
  simpl in Hle. apply Z.leb_gt in Hle.
  rewrite !dsub_exact in Hrun by (unfold exact_max in *; lia).
  destruct (fib_memo fuel (Fin (z - 1)) t) as [[a c1]|] eqn:H1; [|done].
  cbn [mbind option_bind] in Hrun.
  destruct (fib_memo fuel (Fin (z - 2)) c1) as [[b c2]|] eqn:H2; [|done].
  cbn [mbind option_bind] in Hrun.
  rewrite subscript_assign in Hrun by done. injection Hrun as <- <-.
  unfold assign. rewrite lookup_insert_ne by done.
  assert (z - 1 ≤ exact_max ∧ z - 2 ≤ exact_max) as [Hz1 Hz2] by lia.
  rewrite (IH _ _ _ _ Hz2 H2) by (intros j Hj; specialize (Hk j Hj); lia).
  apply (IH _ _ _ _ Hz1 H1). intros j Hj. specialize (Hk j Hj). lia.
Qed.

(** ** The naive recursion and the closed definition *)

Lemma fib_spec_pos (n : nat) : 1 ≤ fib_spec n.
Proof.
  induction (lt_wf n) as [n _ IH]. destruct n as [|[|n]]; [done|done|].
  change (fib_spec (S (S n))) with (fib_spec (S n) + fib_spec n).
  pose proof (IH (S n)). pose proof (IH n). lia.
Qed.

Lemma fib_pair_spec (n : nat) :
  fib_spec (S n) < exact_max →
  fib_pair n = (Fin (fib_spec n), Fin (fib_spec (S n))).
Proof.
  induction n as [|n IH]; intros Hbound; [done|].
  change (fib_spec (S (S n))) with (fib_spec (S n) + fib_spec n) in *.
  pose proof (fib_spec_pos n). pose proof (fib_spec_pos (S n)).
  cbn [fib_pair]. rewrite IH by lia. cbn [dadd].
  by rewrite rnd_exact by lia.
Qed.

Lemma fib_val_spec (z : Z) :
  0 ≤ z ≤ 30 → fib_val (Fin z) = Fin (fib_spec (Z.to_nat z)).
Proof.
  intros Hz. unfold fib_val. rewrite fib_pair_spec; [done|].
  assert (fib_spec 31 < exact_max) as Htop by (by vm_compute).
  assert (∀ n m : nat, (n ≤ m)%nat → fib_spec (S n) ≤ fib_spec (S m)) as Hmono.
  { intros n m Hnm. induction Hnm as [|m _ IH]; [lia|].
    change (fib_spec (S (S m))) with (fib_spec (S m) + fib_spec m).
    pose proof (fib_spec_pos m). lia. }
  pose proof (Hmono (Z.to_nat z) 30%nat). lia.
Qed.

Lemma fib_exact (fuel : nat) :
  ∀ z : Z,
    z ≤ exact_max → (Z.to_nat z < fuel)%nat →
    fib fuel (Fin z) = Some (fib_val (Fin z)).
Proof.
  induction fuel as [|fuel IH]; intros z Hz Hfuel; [lia|].
  cbn [fib]. destruct (dle (Fin z) (Fin 1)) eqn:Hle; simpl in Hle.
  { apply Z.leb_le in Hle. by rewrite fib_val_base. }
  apply Z.leb_gt in Hle.
  rewrite !dsub_exact by (unfold exact_max in *; lia).
  rewrite !IH by lia. cbn [mbind option_bind].
  by rewrite <- fib_val_step by lia.
Qed.

(** ** The claims about the shared Fibonacci table *)

(** C2: on every table the program can hold, whatever calls filled it, and
    for every index from 0 to 30, [fib_memo] returns the value of the
    closed recursive definition ([fib 0 = 1], [fib 1 = 1],
    [fib n = fib (n-1) + fib (n-2)]), and so does the naive recursive
    [fib] of the source. *)
Theorem fib_memo_refines_definition (t : table) (z : Z) (fuel : nat) :
  reachable t →
  0 ≤ z ≤ 30 →
  (Z.to_nat z < fuel)%nat →
  (∃ t', fib_memo fuel (Fin z) t = Some (Fin (fib_spec (Z.to_nat z)), t')) ∧
  fib fuel (Fin z) = Some (Fin (fib_spec (Z.to_nat z))).
Proof.
  intros Hreach Hz Hfuel.
  assert (z ≤ exact_max) as Hzone by (unfold exact_max; lia).
  split.
  - destruct (fib_memo_total_exact fuel z t Hzone Hfuel) as [[v t'] Hrun].
    destruct (fib_memo_sound _ _ _ _ _ (reachable_ok _ Hreach) Hrun)
      as (Hok' & _ & Hfind).
    apply find_Some_lookup in Hfind as [_ Hfind].
    exists t'. rewrite Hrun. do 2 f_equal.
    rewrite <- fib_val_spec by done.
    apply (proj1 Hok' _ _ Hfind). by apply Z.leb_le.
  - rewrite fib_exact by done. f_equal. by apply fib_val_spec.
Qed.

(** C2, at the order of calls the specification names: [fib_memo(5)] after
    [fib_memo(10)] has filled the table. *)
Lemma fib_memo_refines_definition_witness :
  (∃ t', fib_memo 6 (Fin 5) after_ten = Some (Fin (fib_spec 5), t')) ∧
  fib 6 (Fin 5) = Some (Fin (fib_spec 5)).
Proof.
  apply (fib_memo_refines_definition after_ten 5 6).
  - apply (reach_call 11 (Fin 10) ∅ (Fin 89) after_ten reach_init).
    vm_compute. reflexivity.
  - lia.
  - simpl. lia.
Defined.

(** C7, as the code has it: on every table the program can hold, a call
    at index 0 or at an index from 2 up to [2^53] returns, and the table
    then holds an entry for every index from 0 to that index. *)
Theorem fib_memo_fills_below (t : table) (z : Z) (fuel : nat) :
  reachable t →
  z = 0 ∨ 2 ≤ z ≤ exact_max →
  (Z.to_nat z < fuel)%nat →
  ∃ v t',
    fib_memo fuel (Fin z) t = Some (v, t') ∧
    ∀ k, 0 ≤ k ≤ z → is_Some (find (Fin k) t').
Proof.
  intros Hreach Hz Hfuel.
  assert (z ≤ exact_max) as Hzone by (unfold exact_max in *; lia).
  destruct (fib_memo_total_exact fuel z t Hzone Hfuel) as [[v t'] Hrun].
  destruct (fib_memo_sound _ _ _ _ _ (reachable_ok _ Hreach) Hrun)
    as (Hok' & _ & Hfind).
  exists v, t'. split; [done|]. intros k Hk.
  apply find_Some_lookup in Hfind as [_ Hfind].
  destruct Hz as [->|Hz].
  - replace k with 0 by lia. by eexists.
  - apply (proj2 Hok' z); [done|by eexists|done].
Qed.

Lemma fib_memo_fills_below_witness :
  ∃ v t',
    fib_memo 5 (Fin 4) ∅ = Some (v, t') ∧
    ∀ k, 0 ≤ k ≤ 4 → is_Some (find (Fin k) t').
Proof.
  apply (fib_memo_fills_below ∅ 4 5).
  - apply reach_init.
  - right. unfold exact_max. lia.
  - simpl. lia.
Defined.

(** C7 fails at index 1: on the fresh table [fib_memo(1)] stores the
    entry for 1 alone, and index 0 is left without an entry.  It fails
    again past the exact zone: [fib_memo(2^53 + 2)] returns, and the
    integer [2^53 + 1] between its two recursive arguments is not a double
    and has no entry. *)
Lemma fib_memo_one_leaves_zero_out :
  (∃ v t',
     fib_memo 1 (Fin 1) ∅ = Some (v, t') ∧ find (Fin 0) t' = None) ∧
  (∃ fuel v t',
     fib_memo fuel (Fin (exact_max + 2)) ∅ = Some (v, t') ∧
     find (Fin (exact_max + 1)) t' = None).
Proof.
  split.
  { exists (Fin 1), (assign (Fin 1) (Fin 1) ∅). by vm_compute. }
  exists (S (S (Z.to_nat exact_max))).
  assert (find (Fin (exact_max + 2)) (∅ : table) = None) as Hfind by done.
  assert (dle (Fin (exact_max + 2)) (Fin 1) = false) as Hle by done.
  rewrite fib_memo_rec by done.
  replace (dsub (Fin (exact_max + 2)) (Fin 1)) with (Fin exact_max)
    by (by vm_compute).
  replace (dsub (Fin (exact_max + 2)) (Fin 2)) with (Fin exact_max)
    by (by vm_compute).
  destruct (fib_memo_total_exact (S (Z.to_nat exact_max)) exact_max ∅)
    as [[a c1] H1]; [lia|lia|].
  destruct (fib_memo_total_exact (S (Z.to_nat exact_max)) exact_max c1)
    as [[b c2] H2]; [lia|lia|].
  assert (∀ j, Fin (exact_max + 1) = Fin j → exact_max < j) as Habove
    by (intros j [= <-]; lia).
  pose proof (fib_memo_frame _ _ _ _ _ (Z.le_refl _) H1 _ Habove) as F1.
  pose proof (fib_memo_frame _ _ _ _ _ (Z.le_refl _) H2 _ Habove) as F2.
  rewrite H1. cbn [mbind option_bind]. rewrite H2. cbn [mbind option_bind].
  rewrite subscript_assign by reflexivity. clear H1 H2.
  eexists _, _. split; [reflexivity|].
  unfold find, assign. cbn [is_nan].
  rewrite lookup_insert_ne by (intros [=]; lia).
  rewrite F2, F1. apply lookup_empty.
Qed.






(** ** The memoization adapter *)

Section memo_facts.
Context {K V E W : Type} `{Countable K} `{Inhabited V}.
Implicit Types (m : functor K V E W) (key : K) (w : W) (v : V).

Lemma functor_eta m : {| func := func m; cache := cache m |} = m.
Proof. by destruct m. Qed.

Lemma invoke_hit m key w v :
  cache m !! key = Some v → invoke m key w = (inr v, m, w).
Proof.
  intros Hhit. unfold invoke, Memo.subscript. rewrite Hhit.
  by rewrite functor_eta.
Qed.

Lemma invoke_miss m key w :
  cache m !! key = None →
  invoke m key w =
    match func m key w with
    | (inr v, w') =>
        (inr v, {| func := func m; cache := <[key := v]> (cache m) |}, w')
    | (inl e, w') => (inl e, m, w')
    end.
Proof.
  intros Hmiss. unfold invoke, Memo.subscript. rewrite Hmiss.
  destruct (func m key w) as [[e|v] w']; [done|].
  by rewrite lookup_insert_eq.
Qed.

(** A call never removes or changes an entry, and never swaps the
    callable. *)
Lemma invoke_keeps m key w r m' w' :
  invoke m key w = (r, m', w') →
  func m' = func m ∧
  ∀ k v, cache m !! k = Some v → cache m' !! k = Some v.
Proof.
  intros Hcall. destruct (cache m !! key) as [x|] eqn:Hlook.
  - rewrite (invoke_hit _ _ _ x) in Hcall by done.
    by injection Hcall as <- <- <-.
  - rewrite invoke_miss in Hcall by done.
    destruct (func m key w) as [[e|v'] w1]; injection Hcall as <- <- <-;
      [done|].
    split; [done|]. intros k v Hk. simpl.
    rewrite lookup_insert_ne; [done|]. intros ->. congruence.
Qed.

Lemma invoke_all_keeps (keys : list K) :
  ∀ m w m' w',
    invoke_all m keys w = (m', w') →
    func m' = func m ∧
    ∀ k v, cache m !! k = Some v → cache m' !! k = Some v.
Proof.
  induction keys as [|key keys IH]; intros m w m' w' Hrun; simpl in Hrun.
  - by injection Hrun as <- <-.
  - destruct (invoke m key w) as [[r m1] w1] eqn:Hcall.
    destruct (invoke_keeps _ _ _ _ _ _ Hcall) as [Hf Hc].
    destruct (IH _ _ _ _ Hrun) as [Hf' Hc'].
    split; [congruence|]. intros k v Hk. by apply Hc', Hc.
Qed.

(** A call that returns leaves its result stored under its key. *)
Lemma invoke_stores m key w v m' w' :
  invoke m key w = (inr v, m', w') → cache m' !! key = Some v.
Proof.
  intros Hcall. destruct (cache m !! key) as [x|] eqn:Hlook.
  - rewrite (invoke_hit _ _ _ x) in Hcall by done.
    by injection Hcall as <- <- <-.
  - rewrite invoke_miss in Hcall by done.
    destruct (func m key w) as [[e|v'] w1]; [done|].
    injection Hcall as <- <- <-. apply lookup_insert_eq.
Qed.
End memo_facts.

Section memo_claims.
Context {K V E W : Type} `{Countable K} `{Inhabited V}.
Implicit Types (m : functor K V E W) (key : K) (w : W) (v : V).

(** Repeated calls with one key on a counting callable: only the first
    one counts. *)
Lemma counting_repeat (g : K → V) key (n : nat) :
  ∀ (c : gmap K V) (count : nat),
    c !! key = Some (g key) →
    invoke_all {| func := counting g; cache := c |} (replicate n key) count
    = ({| func := counting g; cache := c |}, count).
Proof.
  induction n as [|n IH]; intros c count Hc; [done|].
  cbn [replicate invoke_all].
  rewrite (invoke_hit _ _ _ (g key)) by done. by apply IH.
Qed.

(** What a run on a logged callable keeps true: a key with no entry has
    no returning invocation in the log, and no key has more than one. *)
Lemma logged_run (f : callable K V E W) (keys : list K) :
  ∀ (c : gmap K V) (w : W) (log : list (K * bool)),
    (∀ k, returning_calls k log ≤ 1)%nat →
    (∀ k, c !! k = None → returning_calls k log = 0%nat) →
    ∀ k, (returning_calls k
            (invoke_all {| func := logged f; cache := c |} keys (w, log)).2.2
          ≤ 1)%nat.
Proof.
  induction keys as [|key keys IH]; intros c w log Hone Hnone k; [done|].
  cbn [invoke_all].
  destruct (c !! key) as [x|] eqn:Hlook.
  { rewrite (invoke_hit _ _ _ x) by done. by apply IH. }
  rewrite invoke_miss by done. cbn [func cache logged].
  destruct (f key w) as [[e|v] w1].
  - apply IH.
    + intros k'. unfold returning_calls. rewrite filter_app, length_app.
      rewrite (filter_cons_False _ (key, false)) by done.
      simpl. specialize (Hone k'). unfold returning_calls in Hone. lia.
    + intros k' Hk'. unfold returning_calls. rewrite filter_app, length_app.
      rewrite (filter_cons_False _ (key, false)) by done.
      simpl. specialize (Hnone k' Hk'). unfold returning_calls in Hnone. lia.
  - apply IH.
    + intros k'. unfold returning_calls. rewrite filter_app, length_app.
      destruct (decide (k' = key)) as [->|Hne].
      * rewrite filter_cons_True by done. simpl.
        specialize (Hnone key Hlook). unfold returning_calls in Hnone. lia.
      * rewrite filter_cons_False by congruence. simpl.
        specialize (Hone k'). unfold returning_calls in Hone. lia.
    + intros k' Hk'. destruct (decide (k' = key)) as [->|Hne].
      { by rewrite lookup_insert_eq in Hk'. }
      rewrite lookup_insert_ne in Hk' by done.
      unfold returning_calls. rewrite filter_app, length_app.
      rewrite filter_cons_False by congruence. simpl.
      specialize (Hnone k' Hk'). unfold returning_calls in Hnone. lia.
Qed.

(** C1: once a call with key [key] has returned, every later call with
    that key, after any other calls and in any program state, returns the
    stored value and leaves the program state and the table alone, so the
    callable is not invoked.  A counting callable called one or more times
    with the same key counts exactly one invocation, and on any run of
    calls a logged callable returns at most once per key. *)
Theorem memo_at_most_once m m1 key w w1 v :
  invoke m key w = (inr v, m1, w1) →
  (∀ (keys : list K) w2 m2 w3,
     invoke_all m1 keys w2 = (m2, w3) →
     ∀ w4, invoke m2 key w4 = (inr v, m2, w4)) ∧
  (∀ (g : K → V) (n : nat),
     (invoke_all (memo (counting g)) (replicate (S n) key) 0%nat).2 = 1%nat) ∧
  (∀ (f : callable K V E W) (keys : list K) (w0 : W) (k : K),
     (returning_calls k (invoke_all (memo (logged f)) keys (w0, [])).2.2
      ≤ 1)%nat).
Proof.
  intros Hfirst. split; [|split].
  - intros keys w2 m2 w3 Hrun w4. apply invoke_hit.
    apply (invoke_all_keeps _ _ _ _ _ Hrun).
    by eapply invoke_stores.
  - intros g n. cbn [replicate invoke_all].
    rewrite invoke_miss by apply lookup_empty. cbn [func cache memo counting].
    rewrite counting_repeat; [done|]. apply lookup_insert_eq.
  - intros f keys w0 k. apply logged_run; [|done].
    intros k'. unfold returning_calls. simpl. lia.
Qed.

(** C5: when the callable throws on a miss, the call throws the same
    thing and leaves the adapter as it was, with nothing stored; a retry
    with the same key invokes the callable again, and once a retry
    returns, its result is what later calls with that key get back. *)
Theorem memo_failure_not_cached m key w w1 (e : E) :
  cache m !! key = None →
  func m key w = (inl e, w1) →
  invoke m key w = (inl e, m, w1) ∧
  (∀ w2,
     invoke m key w2 =
       match func m key w2 with
       | (inr v, w3) =>
           (inr v, {| func := func m; cache := <[key := v]> (cache m) |}, w3)
       | (inl e', w3) => (inl e', m, w3)
       end) ∧
  (∀ w2 v m3 w3,
     invoke m key w2 = (inr v, m3, w3) →
     cache m3 !! key = Some v ∧ ∀ w4, invoke m3 key w4 = (inr v, m3, w4)).
Proof.
  intros Hmiss Hthrow. split; [|split].
  - by rewrite invoke_miss, Hthrow.
  - intros w2. by apply invoke_miss.
  - intros w2 v m3 w3 Hretry.
    pose proof (invoke_stores _ _ _ _ _ _ Hretry) as Hstored.
    split; [done|]. intros w4. by apply invoke_hit.
Qed.
End memo_claims.

Lemma memo_at_most_once_witness :
  (∀ (keys : list Z) w2 m2 w3,
     invoke_all (Functor slow_func {[3 := 3]}) keys w2 = (m2, w3) →
     ∀ w4, invoke m2 3 w4 = (inr 3, m2, w4)) ∧
  (∀ (g : Z → Z) (n : nat),
     (invoke_all (memo (counting g)) (replicate (S n) 3) 0%nat).2 = 1%nat) ∧
  (∀ (f : callable Z Z Empty_set Z) (keys : list Z) (w0 : Z) (k : Z),
     (returning_calls k (invoke_all (memo (logged f)) keys (w0, [])).2.2
      ≤ 1)%nat).
Proof.
  apply (memo_at_most_once (memo slow_func) _ 3 0 3 3).
  vm_compute. reflexivity.
Defined.

Lemma memo_failure_not_cached_witness :
  invoke (memo flaky) 5 0%nat = (inl once, memo flaky, 1%nat) ∧
  (∀ w2,
     invoke (memo flaky) 5 w2 =
       match flaky 5 w2 with
       | (inr v, w3) => (inr v, Functor flaky (<[5 := v]> ∅), w3)
       | (inl e', w3) => (inl e', memo flaky, w3)
       end) ∧
  (∀ w2 v m3 w3,
     invoke (memo flaky) 5 w2 = (inr v, m3, w3) →
     cache m3 !! 5 = Some v ∧ ∀ w4, invoke m3 5 w4 = (inr v, m3, w4)).
Proof.
  apply (memo_failure_not_cached (memo flaky) 5 0%nat 1%nat once).
  - reflexivity.
  - reflexivity.
Defined.

(** ** The composite key hasher *)

Section tuple_hash_facts.
Context {value : Type} (type_of : value → string) (std_hash : value → Z).

Lemma filter_type_absent (l : list value) (ty : string) :
  ty ∉ type_of <$> l → filter (λ v, type_of v = ty) l = [].
Proof.
  induction l as [|a l IH]; intros Hty; [done|].
  rewrite fmap_cons, not_elem_of_cons in Hty. destruct Hty as [Hne Hty].
  rewrite filter_cons_False by done. by apply IH.
Qed.

Lemma filter_type_unique (l : list value) (y : value) :
  NoDup (type_of <$> l) → y ∈ l →
  filter (λ v, type_of v = type_of y) l = [y].
Proof.
  induction l as [|a l IH]; intros Hnd Hy; [by apply elem_of_nil in Hy|].
  rewrite fmap_cons in Hnd. apply NoDup_cons in Hnd as [Ha Hnd].
  apply elem_of_cons in Hy as [->|Hy].
  - rewrite filter_cons_True by done. by rewrite filter_type_absent.
  - rewrite filter_cons_False; [by apply IH|].
    intros Heq. apply Ha. rewrite Heq. by apply list_elem_of_fmap_2.
Qed.

(** On a tuple of pairwise distinct component types, the type-indexed
    [std::get] calls rebuild the tail. *)
Lemma get_tail (t : list value) :
  NoDup (type_of <$> t) →
  ∀ ts, ts ⊆ t →
    mapM (λ ty, get_by_type type_of ty t) (type_of <$> ts) = Some ts.
Proof.
  intros Hnd ts Hsub. apply mapM_Some. apply Forall2_fmap_l.
  apply Forall_Forall2_diag. apply Forall_forall. intros y Hy.
  unfold compose, get_by_type. rewrite filter_type_unique; [done|done|].
  by apply Hsub.
Qed.

Lemma tuple_hash_two_or_more (T T' : string) (Ts : list string)
    (t : list value) :
  tuple_hash type_of std_hash (T :: T' :: Ts) t =
    x ← head t;
    rest ← mapM (λ ty, get_by_type type_of ty t) (T' :: Ts);
    r ← tuple_hash type_of std_hash (T' :: Ts) rest;
    Some (mix (std_hash x) r).
Proof. reflexivity. Qed.

Lemma hash_key_nested (ts : list value) :
  ∀ x, NoDup (type_of <$> (x :: ts)) →
    hash_key type_of std_hash (x :: ts) = Some (nested std_hash x ts).
Proof.
  induction ts as [|y ts IH]; intros x Hnd; [done|].
  unfold hash_key. rewrite !fmap_cons, tuple_hash_two_or_more.
  rewrite <- fmap_cons.
  rewrite (get_tail (x :: y :: ts) Hnd (y :: ts))
    by apply list_subseteq_cons, reflexivity.
  change (hash_key type_of std_hash (y :: ts)
          ≫= (λ r, Some (mix (std_hash x) r))
          = Some (nested std_hash x (y :: ts))).
  rewrite IH; [done|].
  rewrite fmap_cons in Hnd. by apply NoDup_cons in Hnd as [_ Hnd].
Qed.

(** C3, as the code has it: on two or more values of pairwise distinct
    types the hasher combines the hash of the first value, as [h], with
    the composite hash of all the remaining values, as [e], by
    [h XOR (e + 0x9e3779b9 + (h << 6) + (h >> 2))]; the recursion nests to
    the right.  On exactly two values this is the fold the specification
    describes. *)
Theorem tuple_hash_nests_right (x y : value) (ts : list value) :
  NoDup (type_of <$> (x :: y :: ts)) →
  hash_key type_of std_hash (y :: ts) = Some (nested std_hash y ts) ∧
  hash_key type_of std_hash (x :: y :: ts)
  = Some (mix (std_hash x) (nested std_hash y ts)) ∧
  (ts = [] →
   hash_key type_of std_hash (x :: y :: ts) = spec_fold std_hash (x :: y :: ts)).
Proof.
  intros Hnd.
  assert (NoDup (type_of <$> (y :: ts))) as Hnd'.
  { rewrite fmap_cons in Hnd. by apply NoDup_cons in Hnd as [_ Hnd]. }
  split; [by apply hash_key_nested|]. split; [by apply hash_key_nested|].
  intros ->. by rewrite hash_key_nested.
Qed.

(** C4, as the code has it: the hasher has no definition for the empty
    parameter pack, whatever it is applied to; its least arity is one,
    where the result is the hash of the single value. *)
Theorem tuple_hash_no_empty_pack (t : list value) (x : value) :
  tuple_hash type_of std_hash [] t = None ∧
  hash_key type_of std_hash [] = None ∧
  hash_key type_of std_hash [x] = Some (std_hash x).
Proof. done. Qed.
End tuple_hash_facts.

Lemma tuple_hash_nests_right_witness :
  hash_key sample_type sample_hash [("long", 2)%string]
  = Some (nested sample_hash ("long", 2)%string []) ∧
  hash_key sample_type sample_hash [("int", 1); ("long", 2)]%string
  = Some (mix 1 (nested sample_hash ("long", 2)%string [])) ∧
  (@nil (string * Z) = [] →
   hash_key sample_type sample_hash [("int", 1); ("long", 2)]%string
   = spec_fold sample_hash [("int", 1); ("long", 2)]%string).
Proof.
  apply (tuple_hash_nests_right sample_type sample_hash
           ("int", 1)%string ("long", 2)%string []).
  apply (bool_decide_unpack _). vm_compute. exact I.
Defined.

(** C3 fails on three values: the hasher nests to the right and the
    specified fold to the left, and the results differ.  It fails too on
    two values of one type, where the type-indexed [std::get] of the
    recursion is ill-formed and there is no hasher. *)
Lemma tuple_hash_is_not_the_fold :
  hash_key sample_type sample_hash
    [("int", 1); ("long", 2); ("char", 3)]%string = Some 5308871734 ∧
  spec_fold sample_hash
    [("int", 1); ("long", 2); ("char", 3)]%string = Some 175247765312 ∧
  hash_key sample_type sample_hash
    [("int", 1); ("long", 2); ("char", 3)]%string
  ≠ spec_fold sample_hash [("int", 1); ("long", 2); ("char", 3)]%string ∧
  hash_key sample_type sample_hash [("int", 1); ("int", 2)]%string = None.
Proof. by vm_compute. Qed.

(** C4 fails: for the empty argument list there is no hash value at all,
    constant or otherwise. *)
Lemma tuple_hash_empty_has_no_value :
  ¬ ∃ c : Z, hash_key sample_type sample_hash [] = Some c.
Proof. by intros [c Hc]. Qed.

(** ** The command-line layer *)

Section cli_facts.
Variable from_chars : string → arithmetic_t + errc.

Lemma deref_parse_cases (arg : string) :
  match from_chars arg with
  | inl value => deref (parse from_chars arg) = Done value
  | inr _ => deref (parse from_chars arg) = Undefined deref_without_value
  end.
Proof. unfold parse. by destruct (from_chars arg). Qed.

(** Collecting the decoded arguments dereferences every parse result, so
    one failed parse is enough. *)
Lemma decode_fails (args : list string) (arg : string) (ec : errc) :
  arg ∈ args →
  from_chars arg = inr ec →
  mapM (λ a, deref (parse from_chars a)) args = Undefined deref_without_value.
Proof.
  intros Hin Hbad. induction args as [|a args IH]; [by apply elem_of_nil in Hin|].
  cbn [mapM]. pose proof (deref_parse_cases a) as Ha.
  destruct (from_chars a) as [value|ec'] eqn:Hfc; rewrite Ha; [|done].
  apply elem_of_cons in Hin as [->|Hin]; [congruence|].
  by rewrite IH.
Qed.

(** C6 is not what the code does: when [std::from_chars] rejects a tail
    argument, [parse] does return the error, but [test_memo] (and so
    [main]) dereferences the result without a check; the run has
    undefined behaviour and no error is reported to the caller. *)
Theorem test_memo_unchecked_parse
    (argv : list string) (elapsed : Z) (arg : string) (ec : errc) :
  arg ∈ drop 1 argv →
  from_chars arg = inr ec →
  parse from_chars arg = unexpected ec ∧
  test_memo from_chars argv elapsed = Undefined deref_without_value ∧
  main from_chars argv elapsed = Undefined deref_without_value ∧
  ∀ ec', main from_chars argv elapsed ≠ Reported ec'.
Proof.
  intros Hin Hbad.
  assert (test_memo from_chars argv elapsed = Undefined deref_without_value)
    as Hrun.
  { unfold test_memo, decode_all. by rewrite (decode_fails _ arg ec). }
  split; [unfold parse; by rewrite Hbad|]. split; [done|].
  unfold main. rewrite Hrun. by split.
Qed.

(** C10: with no argument after the program name (or with no program name
    either) [test_memo] indexes an empty vector, which is undefined
    behaviour, whereas [test_fib_memo] checks the size first and returns,
    printing nothing and leaving the table alone. *)
Theorem test_memo_no_tail_argument
    (prog : string) (elapsed : Z) (fuel : nat) (cache : table) :
  decode_all from_chars [prog] = Done [] ∧
  test_memo from_chars [prog] elapsed = Undefined index_out_of_range ∧
  test_memo from_chars [] elapsed = Undefined index_out_of_range ∧
  test_fib_memo from_chars fuel [prog] cache = Some (Done (None, cache)) ∧
  test_fib_memo from_chars fuel [] cache = Some (Done (None, cache)).
Proof. done. Qed.
End cli_facts.

Lemma test_memo_unchecked_parse_witness :
  parse from_chars_digits "abc" = unexpected invalid_argument ∧
  test_memo from_chars_digits ["prog"; "abc"]%string 0
  = Undefined deref_without_value ∧
  main from_chars_digits ["prog"; "abc"]%string 0
  = Undefined deref_without_value ∧
  ∀ ec', main from_chars_digits ["prog"; "abc"]%string 0 ≠ Reported ec'.
Proof.
  apply (test_memo_unchecked_parse from_chars_digits
           ["prog"; "abc"]%string 0 "abc"%string invalid_argument).
  - simpl. apply list_elem_of_here.
  - reflexivity.
Defined.

(** * Further properties *)

(** ** The shared Fibonacci table *)

Lemma fib_memo_stores (fuel : nat) :
  ∀ (n : arithmetic_t) (t : table) (v : arithmetic_t) (t' : table),
    fib_memo fuel n t = Some (v, t') → find n t' = Some v.
Proof.
  induction fuel as [|fuel IH]; intros n t v t' Hrun; [done|].
  destruct (find n t) as [x|] eqn:Hfind.
  { rewrite (fib_memo_hit _ _ x) in Hrun by done. by injection Hrun as <- <-. }
  destruct (dle n (Fin 1)) eqn:Hle.
  { rewrite fib_memo_base in Hrun by done. injection Hrun as <- <-.
    apply find_assign. by eapply dle_not_nan. }
  rewrite fib_memo_rec in Hrun by done.
  destruct (fib_memo fuel (dsub n (Fin 1)) t) as [[a c1]|] eqn:H1; [|done].
  cbn [mbind option_bind] in Hrun.
  destruct (fib_memo fuel (dsub n (Fin 2)) c1) as [[b c2]|] eqn:H2; [|done].
  cbn [mbind option_bind] in Hrun.
  assert (is_nan n = false) as Hnan.
  { pose proof (IH _ _ _ _ H1) as Hf. by destruct n. }
  rewrite subscript_assign in Hrun by done. injection Hrun as <- <-.
  by apply find_assign.
Qed.

(** X2: whatever the table held, once a call has returned, the same call
    again is a hit: it returns the same value and leaves the table as the
    first call left it. *)
Theorem fib_memo_second_call_hits
    (fuel fuel' : nat) (n : arithmetic_t) (t : table)
    (v : arithmetic_t) (t' : table) :
  fib_memo fuel n t = Some (v, t') →
  fib_memo (S fuel') n t' = Some (v, t').
Proof. intros Hrun. apply fib_memo_hit. by eapply fib_memo_stores. Qed.

Lemma fib_memo_second_call_hits_witness :
  fib_memo 6 (Fin 10) after_ten = Some (Fin 89, after_ten).
Proof.
  apply (fib_memo_second_call_hits 11 5 (Fin 10) ∅ (Fin 89) after_ten).
  vm_compute. reflexivity.
Defined.

(** A call at a non-negative index in the exact zone writes no key outside
    the indices from zero to its argument. *)
Lemma fib_memo_frame_range (fuel : nat) :
  ∀ (z : Z) (t : table) (v : arithmetic_t) (t' : table),
    0 ≤ z ≤ exact_max →
    fib_memo fuel (Fin z) t = Some (v, t') →
    ∀ k, (∀ j, k = Fin j → j < 0 ∨ z < j) → t' !! k = t !! k.
Proof.
  induction fuel as [|fuel IH]; intros z t v t' Hz Hrun k Hk; [done|].
  assert (Fin z ≠ k) as Hne by (intros <-; specialize (Hk z eq_refl); lia).
  destruct (find (Fin z) t) as [x|] eqn:Hfind.
  { rewrite (fib_memo_hit _ _ x) in Hrun by done. by injection Hrun as <- <-. }
  destruct (dle (Fin z) (Fin 1)) eqn:Hle.
  { rewrite fib_memo_base in Hrun by done. injection Hrun as <- <-.
    by apply lookup_insert_ne. }
  rewrite fib_memo_rec in Hrun by done.
  simpl in Hle. apply Z.leb_gt in Hle.
  rewrite !dsub_exact in Hrun by (unfold exact_max in *; lia).
  destruct (fib_memo fuel (Fin (z - 1)) t) as [[a c1]|] eqn:H1; [|done].
  cbn [mbind option_bind] in Hrun.
  destruct (fib_memo fuel (Fin (z - 2)) c1) as [[b c2]|] eqn:H2; [|done].
  cbn [mbind option_bind] in Hrun.
  rewrite subscript_assign in Hrun by done. injection Hrun as <- <-.
  unfold assign. rewrite lookup_insert_ne by done.
  assert (0 ≤ z - 1 ≤ exact_max ∧ 0 ≤ z - 2 ≤ exact_max) as [Hz1 Hz2] by lia.
  rewrite (IH _ _ _ _ Hz2 H2) by (intros j Hj; specialize (Hk j Hj); lia).
  apply (IH _ _ _ _ Hz1 H1). intros j Hj. specialize (Hk j Hj). lia.
Qed.



(** X1: on every table the program can hold and at every integer index
    up to [2^53], the memoized function returns what the naive recursion
    of the source returns, sums that have overflowed to infinity
    included. *)
Theorem fib_memo_agrees_with_fib (t : table) (z : Z) (fuel : nat) :
  reachable t →
  z ≤ exact_max →
  (Z.to_nat z < fuel)%nat →
  ∃ v t', fib_memo fuel (Fin z) t = Some (v, t') ∧ fib fuel (Fin z) = Some v.
Proof.
  intros Hreach Hz Hfuel.
  destruct (fib_memo_total_exact fuel z t Hz Hfuel) as [[v t'] Hrun].
  destruct (fib_memo_sound _ _ _ _ _ (reachable_ok _ Hreach) Hrun)
    as (Hok' & _ & Hfind).
  apply find_Some_lookup in Hfind as [_ Hfind].
  exists v, t'. split; [done|]. rewrite fib_exact by done. f_equal.
  symmetry. apply (proj1 Hok' _ _ Hfind). by apply Z.leb_le.
Qed.

Lemma fib_memo_agrees_with_fib_witness :
  ∃ v t',
    fib_memo 13 (Fin 12) after_ten = Some (v, t') ∧ fib 13 (Fin 12) = Some v.
Proof.
  apply (fib_memo_agrees_with_fib after_ten 12 13).
  - apply (reach_call 11 (Fin 10) ∅ (Fin 89) after_ten reach_init).
    vm_compute. reflexivity.
  - unfold exact_max. lia.
  - simpl. lia.
Defined.

(** X4: a call at index 0, or at an index from 2 up to [2^53], on the
    fresh table leaves exactly the graph of the naive recursion on the
    indices from zero to its argument: one entry per index, holding what
    [fib] returns there, and no other key. *)
Theorem fib_memo_fresh_table (z : Z) (fuel : nat) :
  z = 0 ∨ 2 ≤ z ≤ exact_max →
  (Z.to_nat z < fuel)%nat →
  ∃ v t',
    fib_memo fuel (Fin z) ∅ = Some (v, t') ∧
    ∀ k, t' !! k =
         match k with
         | Fin j => if (0 <=? j) && (j <=? z) then fib fuel (Fin j) else None
         | _ => None
         end.
Proof.
  intros Hz Hfuel.
  assert (0 ≤ z ≤ exact_max) as Hzone by (unfold exact_max in *; lia).
  destruct (fib_memo_total_exact fuel z ∅ (proj2 Hzone) Hfuel)
    as [[v t'] Hrun].
  destruct (fib_memo_sound _ _ _ _ _ table_ok_empty Hrun)
    as (Hok' & _ & Hfind).
  apply find_Some_lookup in Hfind as [_ Hfind].
  pose proof (fib_memo_frame_range _ _ _ _ _ Hzone Hrun) as Hframe.
  exists v, t'. split; [done|]. intros k.
  destruct k as [j| | |];
    try (rewrite Hframe by (by intros j' [=]); apply lookup_empty).
  destruct (Z.leb_spec 0 j) as [Hj0|Hj0]; cbn [andb];
    [destruct (Z.leb_spec j z) as [Hjz|Hjz]|].
  - assert (is_Some (t' !! Fin j)) as [x Hx].
    { destruct Hz as [->|Hz].
      - replace j with 0 by lia. by eexists.
      - apply (proj2 Hok' z); [done|by eexists|done]. }
    rewrite Hx, fib_exact by lia. f_equal.
    apply (proj1 Hok' _ _ Hx). apply Z.leb_le. lia.
  - rewrite Hframe by (intros j' [= <-]; lia). apply lookup_empty.
  - rewrite Hframe by (intros j' [= <-]; lia). apply lookup_empty.
Qed.

Lemma fib_memo_fresh_table_witness :
  ∃ v t',
    fib_memo 5 (Fin 4) ∅ = Some (v, t') ∧
    ∀ k, t' !! k =
         match k with
         | Fin j => if (0 <=? j) && (j <=? 4) then fib 5 (Fin j) else None
         | _ => None
         end.
Proof.
  apply (fib_memo_fresh_table 4 5).
  - right. unfold exact_max. lia.
  - simpl. lia.
Defined.

(** ** Arguments on which the recursions do not return *)

Lemma fib_memo_nan (fuel : nat) : ∀ t : table, fib_memo fuel NaN t = None.
Proof.
  induction fuel as [|fuel IH]; intros t; [done|].
  rewrite fib_memo_rec by done.
  change (dsub NaN (Fin 1)) with NaN. by rewrite IH.
Qed.

Lemma fib_nan_pinf (fuel : nat) : fib fuel NaN = None ∧ fib fuel PInf = None.
Proof.
  induction fuel as [|fuel [IHn IHp]]; [done|]. cbn [fib dle].
  change (dsub NaN (Fin 1)) with NaN. change (dsub PInf (Fin 1)) with PInf.
  by rewrite IHn, IHp.
Qed.

(** No call that returns writes the key plus infinity, and none is made
    with it on a table without it. *)
Lemma fib_memo_no_pinf (fuel : nat) :
  ∀ (n : arithmetic_t) (t : table) (v : arithmetic_t) (t' : table),
    fib_memo fuel n t = Some (v, t') →
    t !! PInf = None →
    t' !! PInf = None ∧ n ≠ PInf.
Proof.
  induction fuel as [|fuel IH]; intros n t v t' Hrun Hnone; [done|].
  destruct (find n t) as [x|] eqn:Hfind.
  { rewrite (fib_memo_hit _ _ x) in Hrun by done. injection Hrun as <- <-.
    split; [done|]. intros ->. apply find_Some_lookup in Hfind as [_ Hfind].
    congruence. }
  destruct (dle n (Fin 1)) eqn:Hle.
  { rewrite fib_memo_base in Hrun by done. injection Hrun as <- <-.
    assert (n ≠ PInf) as Hne by (by intros ->).
    split; [|done]. unfold assign. by rewrite lookup_insert_ne. }
  rewrite fib_memo_rec in Hrun by done.
  destruct (fib_memo fuel (dsub n (Fin 1)) t) as [[a c1]|] eqn:H1; [|done].
  cbn [mbind option_bind] in Hrun.
  destruct (fib_memo fuel (dsub n (Fin 2)) c1) as [[b c2]|] eqn:H2; [|done].
  cbn [mbind option_bind] in Hrun.
  destruct (IH _ _ _ _ H1 Hnone) as [Hnone1 Hne1].
  destruct (IH _ _ _ _ H2 Hnone1) as [Hnone2 _].
  assert (n ≠ PInf) as Hne by (by intros ->).
  split; [|done].
  unfold Fib.subscript in Hrun.
  destruct (find n (assign n (dadd a b) c2)); injection Hrun as <- <-;
    unfold assign; by rewrite ?lookup_insert_ne.
Qed.

Lemma reachable_no_pinf (t : table) : reachable t → t !! PInf = None.
Proof.
  induction 1 as [|fuel n t v t' _ IH Hrun]; [apply lookup_empty|].
  by destruct (fib_memo_no_pinf _ _ _ _ _ Hrun IH).
Qed.

(** X5: on NaN and on plus infinity neither recursion ever returns:
    NaN is never found and is not at most one, infinity minus one is
    infinity, and no table the program can hold has an entry for it. *)
Theorem fib_nan_inf_never_return (t : table) (fuel : nat) :
  reachable t →
  fib_memo fuel NaN t = None ∧
  fib_memo fuel PInf t = None ∧
  fib fuel NaN = None ∧
  fib fuel PInf = None.
Proof.
  intros Hreach. split; [apply fib_memo_nan|]. split; [|apply fib_nan_pinf].
  destruct (fib_memo fuel PInf t) as [[v t']|] eqn:Hrun; [|done].
  by destruct (fib_memo_no_pinf _ _ _ _ _ Hrun (reachable_no_pinf _ Hreach)).
Qed.

Lemma fib_nan_inf_never_return_witness :
  fib_memo 100 NaN after_ten = None ∧
  fib_memo 100 PInf after_ten = None ∧
  fib 100 NaN = None ∧
  fib 100 PInf = None.
Proof.
  apply (fib_nan_inf_never_return after_ten 100).
  apply (reach_call 11 (Fin 10) ∅ (Fin 89) after_ten reach_init).
  vm_compute. reflexivity.
Defined.

(** ** The memoization adapter *)

Section memo_more.
Context {K V E W : Type} `{Countable K} `{Inhabited V}.
Implicit Types (m : functor K V E W) (key : K) (w : W) (v : V).



(** X7: a call reads and writes the entry of its own key only: the entry
    of every other key is what it was. *)
Theorem memo_touches_own_key_only m key w (k : K) :
  k ≠ key →
  cache (invoke m key w).1.2 !! k = cache m !! k.
Proof.
  intros Hne. destruct (cache m !! key) as [x|] eqn:Hlook.
  - by rewrite (invoke_hit _ _ _ x).
  - rewrite invoke_miss by done.
    destruct (func m key w) as [[e|v] w1]; [done|].
    cbn [fst snd cache]. by rewrite lookup_insert_ne.
Qed.




Lemma run_domain (keys : list K) :
  ∀ m w,
    dom (cache (invoke_all m keys w).1) ⊆ dom (cache m) ∪ list_to_set keys.
Proof.
  induction keys as [|key keys IH]; intros m w; [set_solver|].
  cbn [invoke_all]. destruct (invoke m key w) as [[r m1] w1] eqn:Hcall.
  etransitivity; [apply IH|]. cbn [list_to_set].
  assert (dom (cache m1) ⊆ dom (cache m) ∪ {[key]}); [|set_solver].
  destruct (cache m !! key) as [x|] eqn:Hlook.
  - rewrite (invoke_hit _ _ _ x) in Hcall by done.
    injection Hcall as <- <- <-. set_solver.
  - rewrite invoke_miss in Hcall by done.
    destruct (func m key w) as [[e|v] w2]; injection Hcall as <- <- <-;
      [set_solver|]. cbn [cache]. rewrite dom_insert_L. set_solver.
Qed.

(** X9: the table of a wrapper holds entries for keys it was called with
    and for no other key. *)
Theorem memo_table_within_calls
    (f : callable K V E W) (keys : list K) (w : W) :
  dom (cache (invoke_all (memo f) keys w).1) ⊆ list_to_set keys.
Proof.
  etransitivity; [apply run_domain|]. cbn [memo cache].
  rewrite dom_empty_L. set_solver.
Qed.
End memo_more.

Lemma memo_touches_own_key_only_witness :
  cache (invoke (Functor slow_func {[3 := 3]}) 5 0).1.2 !! 3
  = cache (Functor slow_func {[3 := 3]}) !! 3.
Proof.
  apply (memo_touches_own_key_only (Functor slow_func {[3 := 3]}) 5 0 3).
  lia.
Defined.

(** ** The composite key hasher *)

Section tuple_hash_more.
Context {value : Type} (type_of : value → string) (std_hash : value → Z).







Lemma lxor_range (a b : Z) :
  0 ≤ a < 2 ^ 64 → 0 ≤ b < 2 ^ 64 → 0 ≤ Z.lxor a b < 2 ^ 64.
Proof.
  intros Ha Hb.
  assert (0 ≤ Z.lxor a b) as Hnn by (apply Z.lxor_nonneg; lia).
  split; [done|].
  destruct (decide (Z.lxor a b = 0)) as [->|Hz]; [done|].
  apply Z.log2_lt_pow2; [lia|].
  eapply Z.le_lt_trans; [apply Z.log2_lxor; lia|].
  apply Z.max_lub_lt.
  - destruct (decide (a = 0)) as [->|]; [done|]. apply Z.log2_lt_pow2; lia.
  - destruct (decide (b = 0)) as [->|]; [done|]. apply Z.log2_lt_pow2; lia.
Qed.

Lemma mix_range (h e : Z) : 0 ≤ h < 2 ^ 64 → 0 ≤ mix h e < 2 ^ 64.
Proof.
  intros Hh. unfold mix. apply lxor_range; [done|].
  unfold add64 at 1. by apply Z.mod_pos_bound.
Qed.

(** X11: when [std::hash] returns values of [size_t], so does the
    composite hasher: with the wrap-around of every addition and shift
    the result stays within 64 bits. *)
Theorem tuple_hash_in_range (pack : list string) (t : list value) (h : Z) :
  (∀ v, 0 ≤ std_hash v < 2 ^ 64) →
  tuple_hash type_of std_hash pack t = Some h →
  0 ≤ h < 2 ^ 64.
Proof.
  intros Hrange Hh. destruct pack as [|T [|T' Ts]]; [done| |].
  - cbn [tuple_hash] in Hh. destruct (head t) as [x|]; [|done].
    injection Hh as <-. apply Hrange.
  - rewrite tuple_hash_two_or_more in Hh.
    destruct (head t) as [x|]; [|done]. cbn [mbind option_bind] in Hh.
    destruct (mapM _ (T' :: Ts)) as [rest|]; [|done].
    cbn [mbind option_bind] in Hh.
    destruct (tuple_hash type_of std_hash (T' :: Ts) rest) as [r|]; [|done].
    injection Hh as <-. apply mix_range, Hrange.
Qed.
End tuple_hash_more.

Lemma tuple_hash_in_range_witness : 0 ≤ 5308871734 < 2 ^ 64.
Proof.
  apply (tuple_hash_in_range sample_type sample_hash64
           ["int"; "long"; "char"]%string
           [("int", 1); ("long", 2); ("char", 3)]%string).
  - intros v. unfold sample_hash64. by apply Z.mod_pos_bound.
  - vm_compute. reflexivity.
Defined.

(** ** The reducers *)

(** On the samples [div_size] gives what the kernel's binary64 division
    gives. *)
Lemma div_size_agrees_with_binary64 :
  forallb (λ '(a, n),
             match div_size (Fin a) n with
             | Some q =>
                 agrees q (PrimFloat.div (of_small a) (of_small (Z.of_nat n)))
             | None => false
             end)
    quotient_samples = true.
Proof. by vm_compute. Qed.

Lemma rnd_exact_abs (z : Z) : Z.abs z < exact_max → rnd z = Fin z.
Proof.
  intros Hz. destruct (Z.le_gt_cases 0 z) as [Hpos|Hneg].
  { apply rnd_exact. lia. }
  pose proof (rnd_exact (- z)) as Hr. unfold rnd in *.
  rewrite Z.abs_opp in Hr.
  destruct (2 ^ emax <=? round_mag (Z.abs z)).
  - destruct (- z <? 0); by discriminate Hr; lia.
  - f_equal. assert (Fin (Z.sgn (- z) * round_mag (Z.abs z)) = Fin (- z))
      as [= Hm] by (apply Hr; lia).
    rewrite Z.sgn_pos in Hm by lia. rewrite Z.sgn_neg by lia. lia.
Qed.

Lemma sum_from_exact (zs : list Z) :
  ∀ acc : Z,
    Z.abs acc + abs_total zs < exact_max →
    foldl dadd (Fin acc) (Fin <$> zs) = Fin (acc + total zs).
Proof.
  induction zs as [|z zs IH]; intros acc Hbound.
  { cbn [fmap list_fmap foldl total foldr]. f_equal. lia. }
  cbn [abs_total total foldr] in *. fold (abs_total zs) in *.
  fold (total zs). rewrite fmap_cons. cbn [foldl dadd].
  pose proof (Z.abs_triangle acc z).
  assert (0 ≤ abs_total zs) as Hnn.
  { clear. induction zs as [|y zs IH]; [done|].
    cbn [abs_total foldr]. fold (abs_total zs). lia. }
  rewrite rnd_exact_abs by lia. rewrite IH by lia. f_equal. lia.
Qed.

(** X12: [sum] of integer-valued arguments is their exact integer sum
    whenever the magnitudes add up to less than [2^53]; no rounding
    happens on the way, in whatever order the arguments come. *)
Theorem sum_exact (zs : list Z) :
  abs_total zs < exact_max →
  sum (Fin <$> zs) = Fin (total zs).
Proof. intros Hbound. unfold sum. by rewrite sum_from_exact. Qed.

Lemma sum_exact_witness :
  sum (Fin <$> [5; -7; 40]) = Fin (total [5; -7; 40]).
Proof. apply (sum_exact [5; -7; 40]). by vm_compute. Defined.

(** X13: [avg] of integer-valued arguments whose exact sum is a multiple
    of their number is the exact quotient, under the same bound on the
    magnitudes. *)
Theorem avg_exact (zs : list Z) :
  zs ≠ [] →
  abs_total zs < exact_max →
  Z.of_nat (length zs) ≤ exact_max →
  total zs mod Z.of_nat (length zs) = 0 →
  avg (Fin <$> zs) = Some (Fin (total zs / Z.of_nat (length zs))).
Proof.
  intros Hne Hbound Hlen Hdiv. unfold avg. rewrite length_fmap.
  fold (sum (Fin <$> zs)). unfold sum. rewrite sum_from_exact by done.
  rewrite Z.add_0_l. unfold div_size.
  assert (0 < Z.of_nat (length zs)) as Hpos by (destruct zs; [done|simpl; lia]).
  destruct (Z.eqb_spec (Z.of_nat (length zs)) 0) as [|_]; [lia|].
  destruct (Z.ltb_spec (2 ^ 53) (Z.of_nat (length zs))) as [|_];
    [unfold exact_max in *; lia|].
  rewrite Hdiv. cbn [Z.eqb]. f_equal. apply rnd_exact_abs.
  assert (Z.abs (total zs) ≤ abs_total zs) as Htot.
  { clear. induction zs as [|y zs IH]; [done|].
    cbn [total abs_total foldr]. fold (total zs) (abs_total zs). lia. }
  assert (Z.abs (total zs / Z.of_nat (length zs)) ≤ Z.abs (total zs)); [|lia].
  pose proof (Z.div_mod (total zs) (Z.of_nat (length zs)) ltac:(lia)) as Hd.
  rewrite Hdiv in Hd. nia.
Qed.

Lemma avg_exact_witness :
  avg (Fin <$> [5; -7; 41]) = Some (Fin (total [5; -7; 41] / Z.of_nat 3)).
Proof.
  apply (avg_exact [5; -7; 41]); [done|by vm_compute|by vm_compute|done].
Defined.

(** ** The command-line layer *)

Section cli_more.
Variable from_chars : string → arithmetic_t + errc.







(** X16: [test_fib_memo] looks at its first tail argument only: a later
    argument that does not parse changes nothing there, while the same
    command line is undefined behaviour in [test_memo] and [test_sum],
    which decode every argument. *)
Theorem test_fib_memo_ignores_rest
    (prog a b : string) (rest : list string) (ec : errc)
    (fuel : nat) (cache : table) (elapsed : Z) :
  from_chars b = inr ec →
  test_fib_memo from_chars fuel (prog :: a :: b :: rest) cache
  = test_fib_memo from_chars fuel [prog; a] cache ∧
  test_memo from_chars (prog :: a :: b :: rest) elapsed
  = Undefined deref_without_value ∧
  test_sum from_chars (prog :: a :: b :: rest)
  = Undefined deref_without_value.
Proof.
  intros Hbad. split; [done|].
  assert (decode_all from_chars (prog :: a :: b :: rest)
          = Undefined deref_without_value) as Hdecode.
  { unfold decode_all. apply (decode_fails _ _ b ec); [|done].
    cbn [drop]. apply list_elem_of_further, list_elem_of_here. }
  unfold test_memo, test_sum. by rewrite Hdecode.
Qed.

(** X17: when the first tail argument parses to an index from 0 to 30,
    [test_fib_memo] prints the value of the closed recursive definition at
    that index, on every table the program can hold and whatever follows
    on the command line. *)
Theorem test_fib_memo_prints_fib
    (prog a : string) (rest : list string) (z : Z)
    (fuel : nat) (cache : table) :
  from_chars a = inl (Fin z) →
  0 ≤ z ≤ 30 →
  reachable cache →
  (Z.to_nat z < fuel)%nat →
  ∃ cache',
    test_fib_memo from_chars fuel (prog :: a :: rest) cache
    = Some (Done (Some (Fin (fib_spec (Z.to_nat z))), cache')).
Proof.
  intros Hparse Hz Hreach Hfuel.
  assert (z ≤ exact_max) as Hzone by (unfold exact_max; lia).
  destruct (fib_memo_total_exact fuel z cache Hzone Hfuel) as [[v t'] Hrun].
  destruct (fib_memo_sound _ _ _ _ _ (reachable_ok _ Hreach) Hrun)
    as (Hok' & _ & Hfind).
  apply find_Some_lookup in Hfind as [_ Hfind].
  assert (v = Fin (fib_spec (Z.to_nat z))) as ->.
  { rewrite <- fib_val_spec by done.
    apply (proj1 Hok' _ _ Hfind). by apply Z.leb_le. }
  exists t'. unfold test_fib_memo.
  cbn [drop take length Nat.ltb Nat.leb index lookup list_lookup
       mbind outcome_bind].
  unfold parse. rewrite Hparse. cbn [deref]. by rewrite Hrun.
Qed.

(** X18: the other entry points dereference the parse result without a
    check as well: a tail argument that does not parse is undefined
    behaviour in [test_sum] and [test_avg], and so is one in first place
    in [test_fib_memo]. *)
Theorem test_sum_avg_fib_unchecked_parse
    (prog arg : string) (rest argv : list string) (ec : errc)
    (fuel : nat) (cache : table) :
  from_chars arg = inr ec →
  arg ∈ drop 1 argv →
  test_sum from_chars argv = Undefined deref_without_value ∧
  test_avg from_chars argv = Some (Undefined deref_without_value) ∧
  test_fib_memo from_chars fuel (prog :: arg :: rest) cache
  = Some (Undefined deref_without_value).
Proof.
  intros Hbad Hin.
  assert (decode_all from_chars argv = Undefined deref_without_value)
    as Hdecode by (by apply (decode_fails _ _ arg ec)).
  unfold test_sum, test_avg. rewrite Hdecode. split; [done|]. split; [done|].
  unfold test_fib_memo.
  cbn [drop take length Nat.ltb Nat.leb index lookup list_lookup
       mbind outcome_bind].
  unfold parse. by rewrite Hbad.
Qed.

(** X19: when the tail arguments parse to integers whose magnitudes add up
    to less than [2^53], [test_sum] prints their exact sum. *)
Theorem test_sum_prints_total (argv : list string) (zs : list Z) :
  decode_all from_chars argv = Done (Fin <$> zs) →
  abs_total zs < exact_max →
  test_sum from_chars argv = Done (Fin (total zs)).
Proof.
  intros Hdecode Hbound. unfold test_sum. rewrite Hdecode.
  cbn [mbind outcome_bind]. unfold sum. rewrite sum_from_exact by done.
  by rewrite Z.add_0_l.
Qed.

(** X20: with no argument after the program name, [test_sum] prints zero
    and [test_avg] divides zero by zero and prints NaN; neither has the
    undefined behaviour [test_memo] has there. *)
Theorem test_sum_avg_no_tail_argument (prog : string) :
  test_sum from_chars [prog] = Done (Fin 0) ∧
  test_avg from_chars [prog] = Some (Done NaN) ∧
  test_sum from_chars [] = Done (Fin 0) ∧
  test_avg from_chars [] = Some (Done NaN).
Proof. done. Qed.
End cli_more.



Lemma test_fib_memo_ignores_rest_witness :
  test_fib_memo from_chars_digits 6 ["prog"; "5"; "x"]%string after_ten
  = test_fib_memo from_chars_digits 6 ["prog"; "5"]%string after_ten ∧
  test_memo from_chars_digits ["prog"; "5"; "x"]%string 0
  = Undefined deref_without_value ∧
  test_sum from_chars_digits ["prog"; "5"; "x"]%string
  = Undefined deref_without_value.
Proof.
  apply (test_fib_memo_ignores_rest from_chars_digits
           "prog" "5" "x" [] invalid_argument 6 after_ten 0).
  reflexivity.
Defined.

Lemma test_fib_memo_prints_fib_witness :
  ∃ cache',
    test_fib_memo from_chars_digits 6 ["prog"; "5"; "7"]%string after_ten
    = Some (Done (Some (Fin (fib_spec (Z.to_nat 5))), cache')).
Proof.
  apply (test_fib_memo_prints_fib from_chars_digits
           "prog" "5" ["7"%string] 5 6 after_ten).
  - reflexivity.
  - lia.
  - apply (reach_call 11 (Fin 10) ∅ (Fin 89) after_ten reach_init).
    vm_compute. reflexivity.
  - simpl. lia.
Defined.

Lemma test_sum_avg_fib_unchecked_parse_witness :
  test_sum from_chars_digits ["prog"; "1"; "x"]%string
  = Undefined deref_without_value ∧
  test_avg from_chars_digits ["prog"; "1"; "x"]%string
  = Some (Undefined deref_without_value) ∧
  test_fib_memo from_chars_digits 3 ["prog"; "x"]%string ∅
  = Some (Undefined deref_without_value).
Proof.
  apply (test_sum_avg_fib_unchecked_parse from_chars_digits
           "prog" "x" [] ["prog"; "1"; "x"]%string invalid_argument 3 ∅).
  - reflexivity.
  - simpl. apply list_elem_of_further, list_elem_of_here.
Defined.

Lemma test_sum_prints_total_witness :
  test_sum from_chars_digits ["prog"; "1"; "2"; "3"]%string
  = Done (Fin (total [1; 2; 3])).
Proof.
  apply (test_sum_prints_total from_chars_digits
           ["prog"; "1"; "2"; "3"]%string [1; 2; 3]).
  - reflexivity.
  - by vm_compute.
Defined.

(** ** The order of the two recursive calls *)

Lemma fib_memo_any_hit order (fuel : nat) (n x : arithmetic_t) (t : table) :
  find n t = Some x → fib_memo_any order (S fuel) n t = Some (x, t).
Proof.
  intros Hf. cbn [fib_memo_any]. rewrite Hf. cbn [mbind option_bind].
  unfold Fib.subscript. by rewrite Hf.
Qed.

Lemma fib_memo_any_base order (fuel : nat) (n : arithmetic_t) (t : table) :
  find n t = None → dle n (Fin 1) = true →
  fib_memo_any order (S fuel) n t = Some (Fin 1, assign n (Fin 1) t).
Proof.
  intros Hf Hle. cbn [fib_memo_any]. rewrite Hf, Hle. cbn [mbind option_bind].
  by rewrite subscript_assign by (by eapply dle_not_nan).
Qed.

Lemma fib_memo_any_rec order (fuel : nat) (z : Z) (t : table) :
  find (Fin z) t = None → dle (Fin z) (Fin 1) = false →
  fib_memo_any order (S fuel) (Fin z) t =
    if order fuel (Fin z) then
      '(a, c1) ← fib_memo_any order fuel (dsub (Fin z) (Fin 1)) t;
      '(b, c2) ← fib_memo_any order fuel (dsub (Fin z) (Fin 2)) c1;
      Some (dadd a b, assign (Fin z) (dadd a b) c2)
    else
      '(b, c1) ← fib_memo_any order fuel (dsub (Fin z) (Fin 2)) t;
      '(a, c2) ← fib_memo_any order fuel (dsub (Fin z) (Fin 1)) c1;
      Some (dadd a b, assign (Fin z) (dadd a b) c2).
Proof.
  intros Hf Hle. cbn [fib_memo_any]. rewrite Hf, Hle.
  destruct (order fuel (Fin z)).
  - destruct (fib_memo_any order fuel (dsub (Fin z) (Fin 1)) t)
      as [[a c1]|]; [|done]. cbn [mbind option_bind].
    destruct (fib_memo_any order fuel (dsub (Fin z) (Fin 2)) c1)
      as [[b c2]|]; [|done]. cbn [mbind option_bind].
    by rewrite subscript_assign.
  - destruct (fib_memo_any order fuel (dsub (Fin z) (Fin 2)) t)
      as [[b c1]|]; [|done]. cbn [mbind option_bind].
    destruct (fib_memo_any order fuel (dsub (Fin z) (Fin 1)) c1)
      as [[a c2]|]; [|done]. cbn [mbind option_bind].
    by rewrite subscript_assign.
Qed.

Lemma fib_memo_any_left (fuel : nat) :
  ∀ (n : arithmetic_t) (t : table),
    fib_memo_any (λ _ _, true) fuel n t = fib_memo fuel n t.
Proof.
  induction fuel as [|fuel IH]; intros n t; [done|].
  cbn [fib_memo_any fib_memo]. destruct (find n t); [done|].
  destruct (dle n (Fin 1)); [done|]. rewrite IH.
  destruct (fib_memo fuel (dsub n (Fin 1)) t) as [[a c1]|]; [|done].
  cbn [mbind option_bind]. by rewrite IH.
Qed.

Lemma in_fill_self (z : Z) : 0 ≤ z ∨ z ≤ 1 → in_fill z z = true.
Proof. intros Hz. unfold in_fill. destruct (Z.leb_spec 2 z); lia. Qed.

Lemma in_fill_parts (z j : Z) :
  2 ≤ z →
  in_fill z j = (j =? z) || in_fill (z - 1) j || in_fill (z - 2) j.
Proof.
  intros Hz. unfold in_fill.
  destruct (Z.leb_spec 2 z), (Z.leb_spec 2 (z - 1)), (Z.leb_spec 2 (z - 2));
    lia.
Qed.

Lemma filled_other (z : Z) (t : table) (k : arithmetic_t) :
  (∀ j, k = Fin j → in_fill z j = false) → filled z t k = t !! k.
Proof.
  intros Hk. destruct k as [j| | |]; try done.
  unfold filled. by rewrite (Hk j eq_refl).
Qed.

(** The two recursive calls composed, in either order: [z1] and [z2] are
    [z - 1] and [z - 2], one way or the other. *)
Lemma filled_compose (z z1 z2 : Z) (t c1 c2 : table) :
  2 ≤ z ≤ exact_max →
  (z1 = z - 1 ∧ z2 = z - 2) ∨ (z1 = z - 2 ∧ z2 = z - 1) →
  (∀ k, c1 !! k = filled z1 t k) →
  (∀ k, c2 !! k = filled z2 c1 k) →
  table_ok c2 →
  table_ok (assign (Fin z) (fib_val (Fin z)) c2) ∧
  ∀ k, assign (Fin z) (fib_val (Fin z)) c2 !! k = filled z t k.
Proof.
  intros Hz Hparts Hc1 Hc2 Hok2.
  assert (∀ j, c2 !! Fin j =
               if in_fill (z - 1) j || in_fill (z - 2) j
               then Some (fib_val (Fin j)) else t !! Fin j) as Hboth.
  { intros j. rewrite Hc2. unfold filled at 1. rewrite Hc1. unfold filled.
    destruct Hparts as [[-> ->]|[-> ->]];
      by destruct (in_fill (z - 1) j), (in_fill (z - 2) j). }
  split.
  - apply table_ok_insert; [done|done|].
    intros z' [= <-] _ j Hj. rewrite Hboth.
    assert (in_fill (z - 1) j || in_fill (z - 2) j = true) as ->; [|by eexists].
    pose proof (in_fill_parts z j (proj1 Hz)) as Hp.
    assert (in_fill z j = true) as Hin
      by (unfold in_fill; destruct (Z.leb_spec 2 z); lia).
    rewrite Hin in Hp. destruct (Z.eqb_spec j z); [lia|]. by rewrite Hp.
  - intros k. unfold assign. destruct (decide (Fin z = k)) as [<-|Hne].
    + rewrite lookup_insert_eq. unfold filled.
      by rewrite in_fill_self by lia.
    + rewrite lookup_insert_ne by done.
      destruct k as [j| | |];
        try (rewrite Hc2; unfold filled at 1; by rewrite Hc1).
      rewrite Hboth. unfold filled. rewrite (in_fill_parts z j) by lia.
      destruct (Z.eqb_spec j z) as [->|]; [done|]. done.
Qed.

Lemma fib_memo_any_filled order (fuel : nat) :
  ∀ (z : Z) (t : table),
    table_ok t →
    z ≤ exact_max →
    (Z.to_nat z < fuel)%nat →
    ∃ t',
      fib_memo_any order fuel (Fin z) t = Some (fib_val (Fin z), t') ∧
      table_ok t' ∧
      ∀ k, t' !! k = filled z t k.
Proof.
  induction fuel as [|fuel IH]; intros z t Hok Hz Hfuel; [lia|].
  destruct (find (Fin z) t) as [x|] eqn:Hfind.
  { rewrite (fib_memo_any_hit _ _ _ x) by done.
    apply find_Some_lookup in Hfind as [_ Hfind].
    assert (x = fib_val (Fin z)) as ->
      by (apply (proj1 Hok _ _ Hfind); by apply Z.leb_le).
    exists t. split; [done|]. split; [done|]. intros k.
    destruct k as [j| | |]; try done. unfold filled.
    destruct (in_fill z j) eqn:Hin; [|done]. unfold in_fill in Hin.
    destruct (Z.leb_spec 2 z) as [Hz2|Hz2].
    - destruct (proj2 Hok z ltac:(lia) ltac:(by eexists) j ltac:(lia))
        as [y Hy].
      rewrite Hy. f_equal. apply (proj1 Hok _ _ Hy). apply Z.leb_le. lia.
    - apply Z.eqb_eq in Hin as ->. done. }
  destruct (dle (Fin z) (Fin 1)) eqn:Hle.
  { rewrite fib_memo_any_base by done. simpl in Hle. apply Z.leb_le in Hle.
    rewrite fib_val_base by done. eexists. split; [done|].
    destruct (table_ok_insert (Fin z) (Fin 1) t Hok) as [Hok' _].
    - intros _. by rewrite fib_val_base.
    - intros z' [= <-] Hz'. lia.
    - split; [done|]. intros k. unfold assign.
      destruct (decide (Fin z = k)) as [<-|Hne].
      + rewrite lookup_insert_eq. unfold filled.
        by rewrite in_fill_self, fib_val_base by lia.
      + rewrite lookup_insert_ne by done. symmetry. apply filled_other.
        intros j ->. unfold in_fill. destruct (Z.leb_spec 2 z); [lia|].
        apply Z.eqb_neq. congruence. }
  rewrite fib_memo_any_rec by done.
  simpl in Hle. apply Z.leb_gt in Hle.
  rewrite !dsub_exact by (unfold exact_max in *; lia).
  assert (dadd (fib_val (Fin (z - 1))) (fib_val (Fin (z - 2)))
          = fib_val (Fin z)) as Hstep by (by rewrite <- fib_val_step by lia).
  destruct (order fuel (Fin z)).
  - destruct (IH (z - 1) t Hok) as (c1 & -> & Hok1 & Hc1); [lia|lia|].
    cbn [mbind option_bind].
    destruct (IH (z - 2) c1 Hok1) as (c2 & -> & Hok2 & Hc2); [lia|lia|].
    cbn [mbind option_bind]. rewrite Hstep. eexists. split; [done|].
    apply (filled_compose z (z - 1) (z - 2) t c1 c2); auto with lia.
  - destruct (IH (z - 2) t Hok) as (c1 & -> & Hok1 & Hc1); [lia|lia|].
    cbn [mbind option_bind].
    destruct (IH (z - 1) c1 Hok1) as (c2 & -> & Hok2 & Hc2); [lia|lia|].
    cbn [mbind option_bind]. rewrite Hstep. eexists. split; [done|].
    apply (filled_compose z (z - 2) (z - 1) t c1 c2); auto with lia.
Qed.

(** X21: the language leaves open which operand of
    [fib_memo(n - 1) + fib_memo(n - 2)] is evaluated first.  On every
    table the program can hold and at every index up to [2^53] the choice
    does not show: whatever is chosen at each call, the value returned and
    the table left are those of the left-to-right evaluation. *)
Theorem fib_memo_order_irrelevant
    (order : nat → arithmetic_t → bool) (t : table) (z : Z) (fuel : nat) :
  reachable t →
  z ≤ exact_max →
  (Z.to_nat z < fuel)%nat →
  fib_memo_any order fuel (Fin z) t = fib_memo fuel (Fin z) t ∧
  is_Some (fib_memo fuel (Fin z) t).
Proof.
  intros Hreach Hz Hfuel. pose proof (reachable_ok _ Hreach) as Hok.
  destruct (fib_memo_any_filled order fuel z t Hok Hz Hfuel)
    as (t1 & H1 & _ & Hc1).
  destruct (fib_memo_any_filled (λ _ _, true) fuel z t Hok Hz Hfuel)
    as (t2 & H2 & _ & Hc2).
  rewrite fib_memo_any_left in H2. rewrite H1, H2. split; [|by eexists].
  do 2 f_equal. apply map_eq. intros k. by rewrite Hc1, Hc2.
Qed.

Lemma fib_memo_order_irrelevant_witness :
  fib_memo_any (λ _ _, false) 13 (Fin 12) after_ten
  = fib_memo 13 (Fin 12) after_ten ∧
  is_Some (fib_memo 13 (Fin 12) after_ten).
Proof.
  apply (fib_memo_order_irrelevant (λ _ _, false) after_ten 12 13).
  - apply (reach_call 11 (Fin 10) ∅ (Fin 89) after_ten reach_init).
    vm_compute. reflexivity.
  - unfold exact_max. lia.
  - simpl. lia.
Defined.
